(** * TopoART: a verification model of [topological/TopoART.py]

  The wrapper class [TopoART] keeps an ordered collection of category
  weights (held by the base module), a category adjacency matrix, a counter
  per category and a permanence mask, and drives a vigilance based base
  module (any class with the [BaseART] interface) one sample at a time.

  The development follows the Python source method by method.  Python
  exceptions are values of an error monad that keeps the state a failed call
  leaves, [numpy] arrays are lists tagged with their number of dimensions
  (the constructor of the class creates 0-dimensional arrays), integer
  arrays hold 64-bit integers, activation scores are rationals. *)

From Stdlib Require Import QArith Qabs.
From stdpp Require Import base list gmap numbers sorting strings.

Open Scope Z_scope.

(** ** Python values and exceptions *)

Module Py.

(** The exceptions the modelled code can raise.  [LoopFuel] is not a Python
    exception: it marks the bound the model puts on the [while] loop of
    [step_fit], which lemma [TopoARTFacts.step_fit_within_fuel] shows is never
    reached. *)
Inductive exn : Set :=
| ValueError | TypeError | IndexError | KeyError
| AssertionError | RecursionError | LoopFuel.

Inductive result (A : Type) : Type :=
| Ok (a : A)
| Raise (e : exn).
Global Arguments Ok {A} a.
Global Arguments Raise {A} e.

Definition is_raise {A} (r : result A) : Prop :=
  match r with Ok _ => False | Raise _ => True end.

Definition bind {A B} (r : result A) (k : A -> result B) : result B :=
  match r with Ok a => k a | Raise e => Raise e end.

(** *** numpy arrays

    [np.zeros([], dtype=int)] is a 0-dimensional array, which is what
    [__init__] stores in the three array attributes.  The counter and the
    mask are afterwards only assigned 1-dimensional arrays, the adjacency
    only 2-dimensional ones. *)
Inductive vector (A : Type) : Type :=
| Vec0 (a : A)            (* shape () *)
| Vec1 (l : list A).      (* shape (n,) *)
Global Arguments Vec0 {A} a.
Global Arguments Vec1 {A} l.

Inductive matrix : Type :=
| Mat0 (a : Z)                 (* shape () *)
| Mat2 (rows : list (list Z)). (* shape (n, m), as a list of n rows *)

(** *** 64-bit integers

    The arrays the class creates with [dtype=int] hold signed 64-bit
    integers, and so do the scalars read from them: an addition whose result
    does not fit wraps around (silently in an array, with a warning on
    scalars). *)
Definition wrap64 (z : Z) : Z := (z + 2 ^ 63) `mod` 2 ^ 64 - 2 ^ 63.

Definition int64 (z : Z) : Prop := - 2 ^ 63 <= z < 2 ^ 63.

(** [len(v)] for a vector that is known to be 1-dimensional. *)
Definition vec_len {A} (v : vector A) : option nat :=
  match v with Vec0 _ => None | Vec1 l => Some (length l) end.

Definition ncols (rows : list (list Z)) : nat :=
  match rows with [] => 0%nat | r :: _ => length r end.

(** [m] is an [n] x [n] array. *)
Definition square (n : nat) (m : matrix) : Prop :=
  match m with
  | Mat0 _ => False
  | Mat2 rows => length rows = n /\ Forall (fun r => length r = n) rows
  end.

Definition mat_get (m : matrix) (i j : nat) : option Z :=
  match m with
  | Mat0 _ => None
  | Mat2 rows =>
      match rows !! i with Some row => row !! j | None => None end
  end.

(** [np.pad(a, ((0, 1), (0, 1)), "constant")]: one row of zeros below and
    one column of zeros to the right.  The pad widths name two axes, so an
    array with another number of dimensions is refused. *)
Definition np_pad_matrix (m : matrix) : result matrix :=
  match m with
  | Mat0 _ => Raise ValueError
  | Mat2 rows =>
      Ok (Mat2 (((fun r => r ++ [0]) <$> rows) ++ [replicate (S (ncols rows)) 0]))
  end.

(** [np.pad(v, (0, 1), "constant", constant_values=c)]: the pair of widths
    applies to every axis, a 0-dimensional array has none. *)
Definition np_pad_vector {A} (c : A) (v : vector A) : vector A :=
  match v with
  | Vec0 a => Vec0 a
  | Vec1 l => Vec1 (l ++ [c])
  end.

(** The builtin [sum] iterates over its argument and adds the 64-bit
    scalars it yields one after the other, from 0. *)
Definition sum (v : vector Z) : result Z :=
  match v with
  | Vec0 _ => Raise TypeError
  | Vec1 l => Ok (foldl (fun a b => wrap64 (a + b)) 0 l)
  end.

(** [%] on a numpy integer: floored, the sign of the divisor; a zero
    divisor yields 0 with a warning. *)
Definition np_mod (a b : Z) : Z :=
  if decide (b = 0) then 0 else a `mod` b.

(** [v >= c], element by element. *)
Definition np_ge (v : vector Z) (c : Z) : vector bool :=
  match v with
  | Vec0 a => Vec0 (bool_decide (c <= a))
  | Vec1 l => Vec1 ((fun a => bool_decide (c <= a)) <$> l)
  end.

(** [m += r] on boolean arrays (addition of booleans is [or]).  The right
    operand is broadcast to the shape of [m]; [m] itself cannot change
    shape. *)
Definition np_iadd (m r : vector bool) : result (vector bool) :=
  match m, r with
  | Vec0 a, Vec0 b => Ok (Vec0 (a || b))
  | Vec0 _, Vec1 _ => Raise ValueError
  | Vec1 l, Vec0 b => Ok (Vec1 ((fun a => a || b) <$> l))
  | Vec1 l, Vec1 [b] => Ok (Vec1 ((fun a => a || b) <$> l))
  | Vec1 l, Vec1 k =>
      if decide (length k = length l) then Ok (Vec1 (zip_with orb l k))
      else Raise ValueError
  end.

(** [np.where(m)[0]]: the positions that hold [True], ascending.  A
    0-dimensional array is refused (numpy versions that only warn here go on
    to line 147, where [zip] refuses it). *)
Fixpoint where_from (i : nat) (l : list bool) : list nat :=
  match l with
  | [] => []
  | b :: l => if b then i :: where_from (S i) l else where_from (S i) l
  end.

Definition np_where (m : vector bool) : result (list nat) :=
  match m with
  | Vec0 _ => Raise ValueError
  | Vec1 l => Ok (where_from 0 l)
  end.

(** The number of [True] entries, and the number of them before position
    [j]: the index category [j] has among the selected ones. *)
Definition count_true (l : list bool) : nat :=
  length (filter (fun b => b = true) l).

Definition rank (l : list bool) (j : nat) : nat := count_true (take j l).

(** [[w for w, pm in zip(W, m) if pm]]; [zip] stops at the shorter
    argument and cannot iterate over a 0-dimensional array. *)
Fixpoint select {A} (W : list A) (l : list bool) : list A :=
  match W, l with
  | w :: W, b :: l => if b then w :: select W l else select W l
  | _, _ => []
  end.

Definition zip_filter {A} (W : list A) (m : vector bool) : result (list A) :=
  match m with
  | Vec0 _ => Raise TypeError
  | Vec1 l => Ok (select W l)
  end.

(** [v[idx]] with an index array. *)
Fixpoint take_list {A} (l : list A) (idx : list nat) : result (list A) :=
  match idx with
  | [] => Ok []
  | i :: idx =>
      match l !! i with
      | Some a => bind (take_list l idx) (fun r => Ok (a :: r))
      | None => Raise IndexError
      end
  end.

Definition np_take {A} (v : vector A) (idx : list nat) : result (vector A) :=
  match v with
  | Vec0 _ => Raise IndexError
  | Vec1 l => bind (take_list l idx) (fun r => Ok (Vec1 r))
  end.

(** [v[i] += 1] *)
Definition np_incr (v : vector Z) (i : nat) : result (vector Z) :=
  match v with
  | Vec0 _ => Raise IndexError
  | Vec1 l =>
      match l !! i with
      | Some a => Ok (Vec1 (<[i := wrap64 (a + 1)]> l))
      | None => Raise IndexError
      end
  end.

(** What [k] such increments make of an entry [a]. *)
Definition incr64 (k : nat) (a : Z) : Z :=
  Nat.iter k (fun a => wrap64 (a + 1)) a.

(** [m[i, j] += 1] *)
Definition np_incr2 (m : matrix) (i j : nat) : result matrix :=
  match m with
  | Mat0 _ => Raise IndexError
  | Mat2 rows =>
      match rows !! i with
      | Some row =>
          match row !! j with
          | Some a => Ok (Mat2 (<[i := <[j := wrap64 (a + 1)]> row]> rows))
          | None => Raise IndexError
          end
      | None => Raise IndexError
      end
  end.

(** [l[i]] *)
Definition item {A} (l : list A) (i : nat) : result A :=
  match l !! i with
  | Some a => Ok a
  | None => Raise IndexError
  end.

(** [l[i] = a] on a list or a 1-dimensional array. *)
Definition store {A} (l : list A) (i : nat) (a : A) : result (list A) :=
  match l !! i with
  | Some _ => Ok (<[i := a]> l)
  | None => Raise IndexError
  end.

(** [np.unique(l)]: the sorted distinct values. *)
Definition np_unique (l : list Z) : list Z :=
  merge_sort Z.le (remove_dups l).

(** [T > 0] and [any].  The activations are floats in the source and
    rationals here: no NaN, no infinity. *)
Definition positive (t : Q) : bool := negb (Qle_bool t 0).
Definition any_positive (T : list Q) : bool := existsb positive T.

(** The number of entries of [T] that are positive: what is left for the
    loop of [step_fit] to look at. *)
Definition count_positive (T : list Q) : nat :=
  length (filter (fun t => positive t = true) T).

(** [np.argmax(T)]: the first position of the largest value. *)
Fixpoint argmax_from (i best : nat) (top : Q) (T : list Q) : nat :=
  match T with
  | [] => best
  | t :: T =>
      if Qle_bool t top then argmax_from (S i) best top T
      else argmax_from (S i) i t T
  end.

Definition np_argmax (T : list Q) : nat :=
  match T with
  | [] => 0%nat
  | t :: T => argmax_from 1 0 t T
  end.

End Py.

Import Py.

(** ** The base module

  [common/BaseART.py] and the concrete ART modules are not part of the
  sources at hand; the wrapper only uses them through the methods below. *)

Module BaseART.

(** The parameter dictionary [self.params]: the keys the wrapper reads, and
    whatever else the base module keeps in it. *)
Record Params (extra : Type) : Type := mkParams {
  beta : Q;
  beta_lower : Q;
  tau : Z;
  phi : Z;
  base_params : extra;
}.
Global Arguments mkParams {extra}.
Global Arguments beta {extra}.
Global Arguments beta_lower {extra}.
Global Arguments tau {extra}.
Global Arguments phi {extra}.
Global Arguments base_params {extra}.

(** [dict(params, **{"beta": b})] *)
Definition with_beta {extra} (p : Params extra) (b : Q) : Params extra :=
  mkParams b (beta_lower p) (tau p) (phi p) (base_params p).

(** The cache dictionary handed to [update]: the cache of the base module
    and the two keys [step_fit] adds to it. *)
Record Cache (cache : Type) : Type := mkCache {
  cached : cache;
  resonant_c : option Z;
  current_c : option nat;
}.
Global Arguments mkCache {cache}.
Global Arguments cached {cache}.
Global Arguments resonant_c {cache}.
Global Arguments current_c {cache}.

Class module (sample weight cache extra : Type) : Type := {
  category_choice : sample -> weight -> Params extra -> Q * cache;
  match_criterion_bin :
    sample -> weight -> Params extra -> cache -> bool * cache;
  update : sample -> weight -> Params extra -> Cache cache -> weight;
  new_weight : sample -> Params extra -> weight;
  validate_data : list sample -> bool;
}.

End BaseART.

(** ** The wrapper *)

Module TopoART.

Section wrapper.

Context {sample weight cache extra : Type}.
Context {base_module : BaseART.module sample weight cache extra}.

(** Modelled from the spec: [BaseART.check_dimensions] is inherited from
    the absent [common/BaseART.py]; [fit] validates the shape of the data
    once at its start and fails on a data-shape error. *)
Variable check_dimensions : list sample -> bool.

(** The depth left on the interpreter's call stack
    ([sys.getrecursionlimit()]). *)
Variable recursion_limit : nat.

Abbreviation Params := (BaseART.Params extra).
Abbreviation Cache := (BaseART.Cache cache).

(** What the wrapper does to the outside, in order: the calls of the base
    module's [update], the increments of adjacency entries and the prune
    passes (with the data set they are given). *)
Inductive event : Type :=
| EvAdjacency (first second : nat)
| EvUpdate (i : sample) (w : weight) (p : Params) (c : Cache)
| EvPrune (X : list sample).

(** The attributes of a [TopoART] object.  [W] is the property that reads
    and writes [base_module.W]; [trace] is not an attribute but the history
    of events, kept to state the order of effects. *)
Record state : Type := mkState {
  params : Params;
  W : list weight;
  adjacency : matrix;
  _counter : vector Z;
  _permanent_mask : vector bool;
  labels_ : list Z;
  trace : list event;
}.

Definition set_W (st : state) (w : list weight) : state :=
  mkState (params st) w (adjacency st) (_counter st) (_permanent_mask st)
          (labels_ st) (trace st).
Definition set_adjacency (st : state) (a : matrix) : state :=
  mkState (params st) (W st) a (_counter st) (_permanent_mask st)
          (labels_ st) (trace st).
Definition set_counter (st : state) (c : vector Z) : state :=
  mkState (params st) (W st) (adjacency st) c (_permanent_mask st)
          (labels_ st) (trace st).
Definition set_permanent_mask (st : state) (m : vector bool) : state :=
  mkState (params st) (W st) (adjacency st) (_counter st) m
          (labels_ st) (trace st).
Definition set_labels (st : state) (l : list Z) : state :=
  mkState (params st) (W st) (adjacency st) (_counter st)
          (_permanent_mask st) l (trace st).
Definition log (st : state) (e : event) : state :=
  mkState (params st) (W st) (adjacency st) (_counter st)
          (_permanent_mask st) (labels_ st) (trace st ++ [e]).

(** Methods run in a state and leave a state, together with the value they
    return or the exception they raise: an exception does not undo what the
    method did to the object before it. *)
Definition M (A : Type) : Type := state -> result A * state.

Definition ret {A} (a : A) : M A := fun st => (Ok a, st).
Definition raise {A} (e : exn) : M A := fun st => (Raise e, st).
Definition mbind {A B} (m : M A) (k : A -> M B) : M B :=
  fun st => match m st with
            | (Ok a, st') => k a st'
            | (Raise e, st') => (Raise e, st')
            end.
Definition get : M state := fun st => (Ok st, st).
Definition modify (f : state -> state) : M unit := fun st => (Ok tt, f st).
Definition lift {A} (r : result A) : M A := fun st => (r, st).

Notation "x <- m ;; k" := (mbind m (fun x => k))
  (at level 100, m at next level, right associativity).
Notation "m ;;; k" := (mbind m (fun _ => k))
  (at level 100, right associativity).

(** Modelled from the spec: the constructor.  [BaseART.__init__] is not in
    the sources; a new model has no category.  The three arrays are the
    0-dimensional arrays of lines 22-24. *)
Definition __init__ (p : Params) : state :=
  mkState p [] (Mat0 0) (Vec0 0) (Vec0 false) [] [].

(** Lines 35-40. *)
Definition validate_params (p : Params) : bool :=
  Qle_bool (BaseART.beta_lower p) (BaseART.beta p)
  && bool_decide (BaseART.phi p <= BaseART.tau p).

(** Lines 73 and 105: the wrapper hands these on to the base module. *)
Definition category_choice (i : sample) (w : weight) (p : Params) : Q * cache :=
  BaseART.category_choice i w p.

Definition match_criterion_bin (i : sample) (w : weight) (p : Params)
    (c : cache) : bool * cache :=
  BaseART.match_criterion_bin i w p c.

(** Modelled from the spec: [BaseART.add_weight] and [BaseART.set_weight]
    are not in the sources; the first appends a category weight, the second
    replaces the weight of an existing category. *)
Definition add_weight (new_w : weight) : M unit :=
  modify (fun st => set_W st (W st ++ [new_w])).

Definition set_weight (idx : nat) (new_w : weight) : M unit :=
  st <- get ;;
  w' <- lift (store (W st) idx new_w) ;;
  modify (fun st => set_W st w').

(** Lines 121-123. *)
Definition update (i : sample) (w : weight) (p : Params) (c : Cache) : M weight :=
  (if bool_decide (0 <= default (-1) (BaseART.resonant_c c)) then
     match BaseART.current_c c with
     | Some cur =>
         st <- get ;;
         a <- lift (np_incr2 (adjacency st)
                      (Z.to_nat (default (-1) (BaseART.resonant_c c))) cur) ;;
         modify (fun st => log (set_adjacency st a)
                             (EvAdjacency
                                (Z.to_nat (default (-1) (BaseART.resonant_c c)))
                                cur))
     | None => raise KeyError
     end
   else ret tt) ;;;
  modify (fun st => log st (EvUpdate i w p c)) ;;;
  ret (BaseART.update i w p c).

(** Lines 138-141: the method pads the three arrays and calls itself. *)
Fixpoint new_weight_rec (depth : nat) (i : sample) (p : Params) : M weight :=
  match depth with
  | O => raise RecursionError
  | S depth =>
      st <- get ;;
      a <- lift (np_pad_matrix (adjacency st)) ;;
      modify (fun st => set_adjacency st a) ;;;
      modify (fun st => set_counter st (np_pad_vector 1 (_counter st))) ;;;
      modify (fun st => set_permanent_mask st
                          (np_pad_vector false (_permanent_mask st))) ;;;
      new_weight_rec depth i p
  end.

Definition new_weight (i : sample) (p : Params) : M weight :=
  new_weight_rec recursion_limit i p.

(** *** Pruning *)

(** [np.where(perm_labels == label)[0][0]], where there is one. *)
Definition position (perm_labels : list nat) (label : Z) : option nat :=
  fst <$> list_find (fun p => Z.of_nat p = label) perm_labels.

(** Lines 150-154: the dictionary from the labels in use that survive to
    their new index. *)
Definition label_map (perm_labels : list nat) (labels : list Z) : gmap Z nat :=
  list_to_map
    (omap (fun label => pair label <$> position perm_labels label)
          (np_unique labels)).

(** Lines 160 and 195: the activations and caches of all categories,
    transposed by [zip]; unpacking the result into two names needs at least
    one category. *)
Definition choices (x : sample) : M (list Q * list cache) :=
  st <- get ;;
  match W st with
  | [] => raise ValueError
  | _ =>
      let Tc := (fun w => category_choice x w (params st)) <$> W st in
      ret (Tc.*1, Tc.*2)
  end.

(** The array [T] of lines 161 and 196. *)
Definition activations (x : sample) (p : Params) (ws : list weight) : list Q :=
  (fun w => (category_choice x w p).1) <$> ws.

(** The tuple [T_cache] of lines 160 and 195. *)
Definition caches (x : sample) (p : Params) (ws : list weight) : list cache :=
  (fun w => (category_choice x w p).2) <$> ws.

(** Lines 157-164, the body of the loop over the data set. *)
Definition prune_sample (lm : gmap Z nat) (i : nat) (x : sample) : M unit :=
  st <- get ;;
  l <- lift (item (labels_ st) i) ;;
  match lm !! l with
  | Some l' =>
      ls <- lift (store (labels_ st) i (Z.of_nat l')) ;;
      modify (fun st => set_labels st ls)
  | None =>
      Tc <- choices x ;;
      let new_label := np_argmax Tc.1 in
      ls <- lift (store (labels_ st) i (Z.of_nat new_label)) ;;
      modify (fun st => set_labels st ls) ;;;
      st <- get ;;
      c <- lift (np_incr (_counter st) new_label) ;;
      modify (fun st => set_counter st c)
  end.

(** [for i, x in enumerate(X)], from position [i] on. *)
Fixpoint prune_samples (lm : gmap Z nat) (i : nat) (X : list sample) : M unit :=
  match X with
  | [] => ret tt
  | x :: X => prune_sample lm i x ;;; prune_samples lm (S i) X
  end.

(** Lines 145-164. *)
Definition prune (X : list sample) : M unit :=
  modify (fun st => log st (EvPrune X)) ;;;
  st <- get ;;
  m <- lift (np_iadd (_permanent_mask st)
               (np_ge (_counter st) (BaseART.phi (params st)))) ;;
  modify (fun st => set_permanent_mask st m) ;;;
  perm_labels <- lift (np_where m) ;;
  w <- lift (zip_filter (W st) m) ;;
  modify (fun st => set_W st w) ;;;
  c <- lift (np_take (_counter st) perm_labels) ;;
  modify (fun st => set_counter st c) ;;;
  prune_samples (label_map perm_labels (labels_ st)) 0 X.

(** Lines 167-169. *)
Definition step_prune (X : list sample) : M unit :=
  st <- get ;;
  sum_counter <- lift (Py.sum (_counter st)) ;;
  if bool_decide (0 < sum_counter)
     && bool_decide (np_mod sum_counter (BaseART.tau (params st)) = 0)
  then prune X
  else ret tt.

(** *** Fitting one sample *)

Definition reset_func : Type :=
  sample -> weight -> nat -> Params -> cache -> bool.

(** How the [while] loop of [step_fit] is left: by the [return] of line
    222, or because no activation is positive any more. *)
Inductive loop_end : Type :=
| Returned (label : Z)
| Exhausted (resonant_c : Z).

(** Lines 197-224.  [T] and [resonant_c] are the local variables the loop
    changes. *)
Fixpoint resonance_search (fuel : nat) (x : sample)
    (match_reset_func : option reset_func)
    (T_cache : list cache) (T : list Q) (resonant_c : Z) : M loop_end :=
  match fuel with
  | O => raise LoopFuel
  | S fuel =>
      if any_positive T then
        let c_ := np_argmax T in
        st <- get ;;
        w <- lift (item (W st) c_) ;;
        c <- lift (item T_cache c_) ;;
        let mc := match_criterion_bin x w (params st) c in
        let no_match_reset :=
          match match_reset_func with
          | None => true
          | Some f => f x w c_ (params st) mc.2
          end in
        if mc.1 && no_match_reset then
          let p :=
            if bool_decide (resonant_c < 0) then params st
            else BaseART.with_beta (params st) (BaseART.beta_lower (params st)) in
          new_w <- update x w p
                     (BaseART.mkCache mc.2 (Some resonant_c) (Some c_)) ;;
          set_weight c_ new_w ;;;
          if bool_decide (resonant_c < 0)
          then resonance_search fuel x match_reset_func T_cache T (Z.of_nat c_)
          else ret (Returned resonant_c)
        else
          resonance_search fuel x match_reset_func T_cache
            (<[c_ := (-1)%Q]> T) resonant_c
      else ret (Exhausted resonant_c)
  end.

(** Lines 185-232. *)
Definition step_fit (x : sample) (match_reset_func : option reset_func) : M Z :=
  st <- get ;;
  if bool_decide (length (W st) = 0%nat) then
    new_w <- new_weight x (params st) ;;
    add_weight new_w ;;;
    modify (fun st => set_adjacency st (Mat2 [[0]])) ;;;
    modify (fun st => set_counter st (Vec1 [1])) ;;;
    modify (fun st => set_permanent_mask st (Vec1 [false])) ;;;
    ret 0
  else
    Tc <- choices x ;;
    r <- resonance_search (length Tc.1 + 2) x match_reset_func Tc.2 Tc.1 (-1) ;;
    match r with
    | Returned label => ret label
    | Exhausted resonant_c =>
        if bool_decide (resonant_c < 0) then
          st <- get ;;
          let c_new := length (W st) in
          w_new <- new_weight x (params st) ;;
          add_weight w_new ;;;
          ret (Z.of_nat c_new)
        else ret resonant_c
    end.

(** *** Fitting a data set *)

(** Lines 253-256: [for i, x in enumerate(X)], from position [i] on;
    [step_prune] is handed the whole data set every time. *)
Fixpoint fit_samples (X : list sample) (match_reset_func : option reset_func)
    (i : nat) (todo : list sample) : M unit :=
  match todo with
  | [] => ret tt
  | x :: todo =>
      step_prune X ;;;
      c <- step_fit x match_reset_func ;;
      st <- get ;;
      ls <- lift (store (labels_ st) i c) ;;
      modify (fun st => set_labels st ls) ;;;
      fit_samples X match_reset_func (S i) todo
  end.

(** Line 252: [for _ in range(max_iter)]. *)
Fixpoint fit_epochs (max_iter : nat) (X : list sample)
    (match_reset_func : option reset_func) : M unit :=
  match max_iter with
  | O => ret tt
  | S max_iter =>
      fit_samples X match_reset_func 0 X ;;;
      fit_epochs max_iter X match_reset_func
  end.

(** Lines 247-251: the checks, then the two attributes [fit] clears. *)
Definition fit_begin (X : list sample) : M unit :=
  (if BaseART.validate_data X then ret tt else raise AssertionError) ;;;
  (if check_dimensions X then ret tt else raise AssertionError) ;;;
  modify (fun st => set_W st []) ;;;
  modify (fun st => set_labels st (replicate (length X) 0)).

(** Lines 247-257. *)
Definition fit (X : list sample) (match_reset_func : option reset_func)
    (max_iter : nat) : M unit :=
  fit_begin X ;;;
  fit_epochs max_iter X match_reset_func.

(** *** The states a resonance leaves

    The state after category [c] received the weight [w'], the adjacency
    became [a] and the events [evs] took place. *)
Definition after_update (st : state) (c : nat) (w' : weight) (a : matrix)
    (evs : list event) : state :=
  mkState (params st) (<[c := w']> (W st)) a (_counter st)
          (_permanent_mask st) (labels_ st) (trace st ++ evs).

(** The parameters of a second resonance: [beta] is [beta_lower]. *)
Definition lower (p : Params) : Params :=
  BaseART.with_beta p (BaseART.beta_lower p).

(** Line 206 for category [c] with weight [w] and the cache [k] of its
    activation: the match criterion holds and the reset function, if there
    is one, does not object. *)
Definition passes (x : sample) (match_reset_func : option reset_func)
    (p : Params) (c : nat) (w : weight) (k : cache) : bool :=
  let mc := match_criterion_bin x w p k in
  mc.1 && match match_reset_func with
          | None => true
          | Some f => f x w c p mc.2
          end.

(** The cache dictionary [update] receives for category [c]. *)
Definition update_cache (x : sample) (p : Params) (resonant_c : Z) (c : nat)
    (w : weight) (k : cache) : Cache :=
  BaseART.mkCache (match_criterion_bin x w p k).2 (Some resonant_c) (Some c).

(** The loop looks at the categories by decreasing activation: [scan]
    relates the array [T] to what it is after the loop has rejected, one
    after the other, the best candidates (line 224), in a state that the
    rejections leave as it is. *)
Inductive scan (x : sample) (mrf : option reset_func) (T_cache : list cache)
    (st : state) : list Q -> list Q -> Prop :=
| scan_stop T : scan x mrf T_cache st T T
| scan_reject T T' w k :
    any_positive T = true ->
    W st !! np_argmax T = Some w ->
    T_cache !! np_argmax T = Some k ->
    passes x mrf (params st) (np_argmax T) w k = false ->
    scan x mrf T_cache st (<[np_argmax T := (-1)%Q]> T) T' ->
    scan x mrf T_cache st T T'.

(** The loop from a state in which [resonant_c] is set: it finds no further
    resonance, or a second one at the category [c2] it selects next. *)
Definition second_resonance (x : sample) (mrf : option reset_func)
    (T_cache : list cache) (T : list Q) (resonant_c : Z) (st : state)
    (r : loop_end) (st' : state) : Prop :=
  exists T', scan x mrf T_cache st T T' /\
    ((any_positive T' = false /\ r = Exhausted resonant_c /\ st' = st)
     \/ (exists w2 k2 a,
           let c2 := np_argmax T' in
           let p := lower (params st) in
           let c := update_cache x (params st) resonant_c c2 w2 k2 in
           any_positive T' = true
           /\ r = Returned resonant_c
           /\ W st !! c2 = Some w2
           /\ T_cache !! c2 = Some k2
           /\ passes x mrf (params st) c2 w2 k2 = true
           /\ np_incr2 (adjacency st) (Z.to_nat resonant_c) c2 = Ok a
           /\ st' = after_update st c2 (BaseART.update x w2 p c) a
                     [EvAdjacency (Z.to_nat resonant_c) c2;
                      EvUpdate x w2 p c])).

(** The loop from a state in which [resonant_c] is not set: it finds no
    resonance, or a first one at the category [c1] it selects, and goes on
    from there with the array [T] as it is. *)
Definition first_resonance (x : sample) (mrf : option reset_func)
    (T_cache : list cache) (T : list Q) (resonant_c : Z) (st : state)
    (r : loop_end) (st' : state) : Prop :=
  exists T', scan x mrf T_cache st T T' /\
    ((any_positive T' = false /\ r = Exhausted resonant_c /\ st' = st)
     \/ (exists w1 k1,
           let c1 := np_argmax T' in
           let p := params st in
           let c := update_cache x (params st) resonant_c c1 w1 k1 in
           any_positive T' = true
           /\ W st !! c1 = Some w1
           /\ T_cache !! c1 = Some k1
           /\ passes x mrf (params st) c1 w1 k1 = true
           /\ second_resonance x mrf T_cache T' (Z.of_nat c1)
                (after_update st c1 (BaseART.update x w1 p c) (adjacency st)
                   [EvUpdate x w1 p c])
                r st')).

(** *** Shapes *)

(** The four collections have one slot per category: [N] weights, [N]
    counters, [N] flags and an [N] x [N] adjacency. *)
Definition consistent (st : state) : Prop :=
  square (length (W st)) (adjacency st)
  /\ vec_len (_counter st) = Some (length (W st))
  /\ vec_len (_permanent_mask st) = Some (length (W st)).

(** *** Permanent categories *)

(** The permanence flag of category [j] is set. *)
Definition permanent (st : state) (j : nat) : Prop :=
  exists l, _permanent_mask st = Vec1 l /\ l !! j = Some true.

(** What keeps category [j] in place from one prune pass to the next: its
    flag is set, or a flag is set at a position for which there is no
    counter (the mask is not shortened when categories are dropped, see
    [prune_leaves_mask_and_adjacency]), and then no prune pass completes. *)
Definition protected (st : state) (j : nat) : Prop :=
  exists l, _permanent_mask st = Vec1 l
    /\ (l !! j = Some true
        \/ exists i n, vec_len (_counter st) = Some n
                      /\ (n <= i)%nat /\ l !! i = Some true).

(** The index category [j] has after a prune pass left the state [st']:
    line 147 keeps the flagged categories in their order. *)
Definition new_index (st' : state) (j : nat) : nat :=
  match _permanent_mask st' with
  | Vec0 _ => j
  | Vec1 l => rank l j
  end.

(** *** The labels after a prune pass *)

(** The label a prune pass gives a sample [x] that had label [l], with the
    surviving positions [perm_labels] and the surviving weights [ws]. *)
Definition relabel (perm_labels : list nat) (p : Params) (ws : list weight)
    (x : sample) (l : Z) : nat :=
  match position perm_labels l with
  | Some l' => l'
  | None => np_argmax (activations x p ws)
  end.

(** The survivor whose counter the sample increments, if any. *)
Definition reassigned (perm_labels : list nat) (p : Params) (ws : list weight)
    (x : sample) (l : Z) : option nat :=
  match position perm_labels l with
  | Some _ => None
  | None => Some (np_argmax (activations x p ws))
  end.

(** How many samples of [X], labelled [labels], are re-assigned to [n]. *)
Definition reassignments (perm_labels : list nat) (p : Params)
    (ws : list weight) (X : list sample) (labels : list Z) (n : nat) : nat :=
  length (filter (fun xl => reassigned perm_labels p ws xl.1 xl.2 = Some n)
                 (zip X labels)).

(** *** The events of a call *)

(** Between the states [st] and [st'] events took place that all satisfy
    [P], and none was taken off the record. *)
Definition logged (P : event -> Prop) (st st' : state) : Prop :=
  exists evs, trace st' = trace st ++ evs /\ Forall P evs.

(** An event that is not a prune pass, and one that is no prune pass over
    another data set than [X]. *)
Definition no_prune (e : event) : Prop :=
  match e with EvPrune _ => False | _ => True end.

Definition prune_of (X : list sample) (e : event) : Prop :=
  match e with EvPrune X' => X' = X | _ => True end.

End wrapper.

Arguments event : clear implicits.
Arguments state : clear implicits.
Arguments M : clear implicits.
Arguments reset_func : clear implicits.

End TopoART.

(** ** The parameter dictionary of the constructor

  Lines 19 and 35-40 work on [params] as a dictionary.  Here it is one: the
  entries that hold numbers, by key (the integers [tau] and [phi] among the
  rationals). *)

Module Construction.

(** Line 19: [dict(base_module.params, **{"beta_lower": betta_lower,
    "tau": tau, "phi": phi})]. *)
Definition merged (base : gmap string Q) (betta_lower : Q) (tau phi : Z) :
    gmap string Q :=
  <["phi" := inject_Z phi]>
    (<["tau" := inject_Z tau]> (<["beta_lower" := betta_lower]> base)).

(** [assert b] *)
Definition assert_ (b : bool) : result unit :=
  if b then Ok tt else Raise AssertionError.

(** [params[key]] *)
Definition getitem (params : gmap string Q) (key : string) : result Q :=
  match params !! key with
  | Some v => Ok v
  | None => Raise KeyError
  end.

(** [key in params] *)
Definition contains (params : gmap string Q) (key : string) : bool :=
  bool_decide (is_Some (params !! key)).

(** Lines 35-40. *)
Definition validate_params (params : gmap string Q) : result unit :=
  bind (assert_ (contains params "beta")) (fun _ =>
  bind (assert_ (contains params "beta_lower")) (fun _ =>
  bind (assert_ (contains params "tau")) (fun _ =>
  bind (assert_ (contains params "phi")) (fun _ =>
  bind (getitem params "beta") (fun b =>
  bind (getitem params "beta_lower") (fun bl =>
  bind (assert_ (Qle_bool bl b)) (fun _ =>
  bind (getitem params "phi") (fun ph =>
  bind (getitem params "tau") (fun ta =>
  assert_ (Qle_bool ph ta)))))))))).

(** The dictionary of a parameter record: the four keys the wrapper reads. *)
Definition of_record {extra} (p : BaseART.Params extra) : gmap string Q :=
  <["beta" := BaseART.beta p]>
    (merged ∅ (BaseART.beta_lower p) (BaseART.tau p) (BaseART.phi p)).

End Construction.

(** ** A concrete base module

  A one-dimensional module for the runs below: samples and weights are
  rationals in [0, 1], the activation of a category is one minus its
  distance to the sample, a category matches within the vigilance radius
  kept in the parameters, and learning moves the weight towards the sample
  by the fraction [beta]. *)

Module Interval.

Definition dist (i w : Q) : Q := Qabs (i - w).

#[export] Instance art : BaseART.module Q Q unit Q := {|
  BaseART.category_choice i w p := ((1 - dist i w)%Q, tt);
  BaseART.match_criterion_bin i w p c :=
    (Qle_bool (dist i w) (BaseART.base_params p), c);
  BaseART.update i w p c := (w + BaseART.beta p * (i - w))%Q;
  BaseART.new_weight i p := i;
  BaseART.validate_data X :=
    forallb (fun i => Qle_bool 0 i && Qle_bool i 1) X;
|}.

Abbreviation state := (TopoART.state Q Q unit Q).

Definition check_dimensions (X : list Q) : bool := true.

Definition recursion_limit : nat := 1000.

(** [beta = 1], [beta_lower = 1/2], [tau = phi = 2], radius 1/4. *)
Definition params : BaseART.Params Q := BaseART.mkParams 1 (1 # 2) 2 2 (1 # 4).

(** The same with [tau = phi = 3]. *)
Definition params3 : BaseART.Params Q := BaseART.mkParams 1 (1 # 2) 3 3 (1 # 4).

(** What the constructor makes. *)
Definition new_model : state := TopoART.__init__ params.

(** The model lines 189-192 describe after a first sample 1/2: one
    category, a 1 x 1 adjacency of zeros, counter 1, not permanent. *)
Definition one_category : state :=
  TopoART.mkState params [(1 # 2)%Q] (Mat2 [[0]]) (Vec1 [1]) (Vec1 [false])
    [0] [].

(** A model with two categories, the second one with five samples, and the
    two samples that were labelled with them. *)
Definition two_samples : list Q := [(1 # 4)%Q; (3 # 4)%Q].

Definition two_categories : state :=
  TopoART.mkState params [(1 # 4)%Q; (3 # 4)%Q] (Mat2 [[0; 0]; [0; 0]])
    (Vec1 [1; 5]) (Vec1 [false; false]) [0; 1] [].


(** A model left by an earlier fit: one category that two samples were
    assigned to. *)
Definition fitted : state :=
  TopoART.mkState params [(1 # 2)%Q] (Mat2 [[0]]) (Vec1 [2]) (Vec1 [false])
    [0; 0] [].

End Interval.

(** ** Further models of the one-dimensional module *)

Module Runs.

Import Interval.

(** Three categories with one, two and three samples, and three samples
    that were labelled with them; with [phi = 2] the first category does
    not survive a prune pass, the other two do. *)
Definition three_samples : list Q := [(1 # 8)%Q; (1 # 4)%Q; (3 # 4)%Q].

Definition three_categories : state :=
  TopoART.mkState params [(1 # 8)%Q; (1 # 4)%Q; (3 # 4)%Q]
    (Mat2 [[0; 0; 0]; [0; 0; 0]; [0; 0; 0]])
    (Vec1 [1; 2; 3]) (Vec1 [false; false; false]) [0; 1; 2] [].

(** Two categories that are both permanent. *)
Definition all_permanent : state :=
  TopoART.mkState params [(1 # 4)%Q; (3 # 4)%Q] (Mat2 [[0; 0]; [0; 0]])
    (Vec1 [3; 5]) (Vec1 [true; true]) [0; 1] [].

(** Two categories with one sample each, below [phi = 3], none of them
    permanent. *)
Definition no_survivor : state :=
  TopoART.mkState params3 [(1 # 4)%Q; (3 # 4)%Q] (Mat2 [[0; 0]; [0; 0]])
    (Vec1 [1; 1]) (Vec1 [false; false]) [0; 1] [].



(** The parameter dictionary of a base module: its [beta], a vigilance, and
    a [tau] of its own. *)
Definition base_dict : gmap string Q :=
  <["beta" := 1%Q]> (<["rho" := (1 # 4)%Q]> (<["tau" := 7%Q]> ∅)).

End Runs.

(** ** Facts about the numpy operations *)

Module PyFacts.

(** *** 64-bit arithmetic *)

Lemma wrap64_int64 z : int64 (wrap64 z).
Proof. unfold wrap64, int64. pose proof (Z.mod_pos_bound (z + 2 ^ 63) (2 ^ 64)). lia. Qed.

Lemma wrap64_id z : int64 z -> wrap64 z = z.
Proof.
  unfold wrap64, int64. intros H. rewrite Z.mod_small by lia. lia.
Qed.




(** [k] increments of a 64-bit integer that stay below [2 ^ 63] add [k]. *)
Lemma incr64_small k a :
  int64 a -> a + Z.of_nat k < 2 ^ 63 -> incr64 k a = a + Z.of_nat k.
Proof.
  unfold incr64.
  intros Ha. induction k as [|k IH]; intros Hk; simpl; [lia|].
  rewrite IH by lia. rewrite wrap64_id; [lia|]. unfold int64 in *. lia.
Qed.

Lemma incr64_add k1 k2 a : incr64 (k1 + k2) a = incr64 k2 (incr64 k1 a).
Proof. unfold incr64. by rewrite Nat.add_comm, Nat.iter_add. Qed.

Lemma incr64_fmap_add k1 k2 (o : option Z) :
  incr64 k2 <$> (incr64 k1 <$> o) = incr64 (k1 + k2) <$> o.
Proof. destruct o; simpl; [|done]. by rewrite incr64_add. Qed.

Lemma incr64_fmap_0 (o : option Z) : incr64 0 <$> o = o.
Proof. by destruct o. Qed.

Lemma argmax_from_spec T : forall i best top,
  (argmax_from i best top T = best /\ Forall (fun t => (t <= top)%Q) T)
  \/ (exists k t, argmax_from i best top T = (i + k)%nat
                 /\ T !! k = Some t
                 /\ (top < t)%Q
                 /\ Forall (fun t' => (t' <= t)%Q) T).
Proof.
  induction T as [|t0 T IH]; intros i best top; simpl.
  { left. by split. }
  destruct (Qle_bool t0 top) eqn:E.
  - apply Qle_bool_iff in E.
    destruct (IH (S i) best top) as [[-> HT]|(k & t & -> & Hk & Hlt & HT)].
    + left. split; [done|]. by constructor.
    + right. exists (S k), t. split_and!; [lia|done..|].
      constructor; [|done]. apply Qlt_le_weak. by eapply Qle_lt_trans.
  - assert (top < t0)%Q as Hlt.
    { apply Qnot_le_lt. intros H. apply Qle_bool_iff in H. congruence. }
    destruct (IH (S i) i t0) as [[-> HT]|(k & t & -> & Hk & Hlt' & HT)].
    + right. exists 0%nat, t0. split_and!; [lia|done..|].
      constructor; [apply Qle_refl|done].
    + right. exists (S k), t. split_and!; [lia|done| |].
      * by eapply Qlt_trans.
      * constructor; [by apply Qlt_le_weak|done].
Qed.

(** [np.argmax] returns a position of the array, and no entry is larger
    than the one it holds. *)
Lemma np_argmax_spec T :
  T <> [] ->
  exists t, T !! np_argmax T = Some t /\ Forall (fun t' => (t' <= t)%Q) T.
Proof.
  destruct T as [|t0 T]; [done|]. intros _. simpl.
  destruct (argmax_from_spec T 1 0 t0) as [[-> HT]|(k & t & -> & Hk & Hlt & HT)].
  - exists t0. split; [done|]. constructor; [apply Qle_refl|done].
  - exists t. split; [done|]. constructor; [by apply Qlt_le_weak|done].
Qed.

Lemma positive_le t t' : (t' <= t)%Q -> positive t' = true -> positive t = true.
Proof.
  unfold positive. intros Hle Hp. apply negb_true_iff in Hp.
  apply negb_true_iff. destruct (Qle_bool t 0) eqn:E; [|done].
  apply Qle_bool_iff in E.
  assert (Qle_bool t' 0 = true) as H; [|congruence].
  apply Qle_bool_iff. by eapply Qle_trans.
Qed.

(** While an activation is positive, line 198 selects a positive one. *)
Lemma np_argmax_positive T :
  any_positive T = true ->
  exists t, T !! np_argmax T = Some t /\ positive t = true.
Proof.
  intros Hany. apply existsb_exists in Hany as (t' & Hin & Hp).
  destruct (np_argmax_spec T) as (t & Ht & Hmax).
  { intros ->. by inversion Hin. }
  exists t. split; [done|]. eapply positive_le; [|done].
  rewrite Forall_forall in Hmax. apply Hmax. by apply list_elem_of_In.
Qed.

Lemma count_positive_cons t T :
  count_positive (t :: T)
  = ((if positive t then 1 else 0) + count_positive T)%nat.
Proof.
  unfold count_positive. rewrite filter_cons.
  destruct (positive t); by case_decide.
Qed.

(** Line 224 takes a positive activation out of the array. *)
Lemma count_positive_masked T : forall c t,
  T !! c = Some t -> positive t = true ->
  (count_positive (<[c := (-1)%Q]> T) < count_positive T)%nat.
Proof.
  induction T as [|t0 T IH]; intros c t Hc Hp; [done|].
  destruct c as [|c]; simpl in *.
  - simplify_eq. rewrite !count_positive_cons, Hp. simpl. lia.
  - rewrite !count_positive_cons. apply IH in Hc; [|done]. lia.
Qed.

Lemma count_positive_length T : (count_positive T <= length T)%nat.
Proof. unfold count_positive. apply length_filter. Qed.

(** *** Masks and selections *)

Lemma count_true_cons b l :
  count_true (b :: l) = ((if b then 1 else 0) + count_true l)%nat.
Proof. unfold count_true. rewrite filter_cons. destruct b; by case_decide. Qed.

Lemma count_true_app l k : count_true (l ++ k) = (count_true l + count_true k)%nat.
Proof. unfold count_true. by rewrite filter_app, length_app. Qed.

Lemma count_true_length l : (count_true l <= length l)%nat.
Proof. unfold count_true. apply length_filter. Qed.

Lemma rank_cons b l j :
  rank (b :: l) (S j) = ((if b then 1 else 0) + rank l j)%nat.
Proof. unfold rank. simpl. apply count_true_cons. Qed.

Lemma rank_le l j : (rank l j <= j)%nat.
Proof.
  unfold rank. etrans; [apply count_true_length|]. rewrite length_take. lia.
Qed.

Lemma rank_le_count l j : (rank l j <= count_true l)%nat.
Proof.
  unfold rank. rewrite <-(take_drop j l) at 2. rewrite count_true_app. lia.
Qed.

Lemma elem_of_where_from l : forall i x,
  x ∈ where_from i l <-> exists k, x = (i + k)%nat /\ l !! k = Some true.
Proof.
  induction l as [|b l IH]; intros i x; simpl.
  { split; [by intros ?%elem_of_nil|by intros (? & _ & ?)]. }
  assert (x ∈ where_from (S i) l <->
          exists k, x = (i + S k)%nat /\ l !! k = Some true) as IH'.
  { rewrite IH. by setoid_rewrite Nat.add_succ_r. }
  destruct b.
  - rewrite elem_of_cons, IH'. split.
    + intros [->|(k & -> & Hk)]; [exists 0%nat|exists (S k)]; split; done.
    + intros ([|k] & -> & Hk); [left; lia|right; by exists k].
  - rewrite IH'. split.
    + intros (k & -> & Hk). by exists (S k).
    + intros ([|k] & -> & Hk); [done|by exists k].
Qed.

Lemma length_where_from l : forall i, length (where_from i l) = count_true l.
Proof.
  induction l as [|[] l IH]; intros i; simpl; [done|..];
    rewrite count_true_cons, IH; done.
Qed.

Lemma select_lookup {A} (ws : list A) : forall l j w,
  l !! j = Some true -> ws !! j = Some w -> select ws l !! rank l j = Some w.
Proof.
  induction ws as [|w0 ws IH]; intros [|b l] [|j] w Hl Hw; simplify_eq /=;
    [done|].
  rewrite rank_cons. destruct b; simpl; by apply IH.
Qed.

Lemma length_select {A} (ws : list A) : forall l,
  length l = length ws -> length (select ws l) = count_true l.
Proof.
  induction ws as [|w ws IH]; intros [|b l] Hlen; simplify_eq /=; [done|].
  rewrite count_true_cons. destruct b; simpl; by rewrite IH.
Qed.

(** [m += r] only sets flags. *)
Lemma np_iadd_mono l r m :
  np_iadd (Vec1 l) r = Ok m ->
  exists l', m = Vec1 l' /\ length l' = length l
             /\ forall j, l !! j = Some true -> l' !! j = Some true.
Proof.
  assert (forall b, let l' := (fun a => a || b) <$> l in
            length l' = length l
            /\ forall j, l !! j = Some true -> l' !! j = Some true) as Hb.
  { intros b. split; [by rewrite length_fmap|].
    intros j Hj. by rewrite list_lookup_fmap, Hj. }
  destruct r as [b|[|b [|b' k]]]; simpl.
  - intros [= <-]. eexists. split; [done|]. apply Hb.
  - case_decide as Hlen; [|done]. intros [= <-]. eexists. split; [done|].
    destruct l; [|done]. split; [done|]. by intros j ?.
  - intros [= <-]. eexists. split; [done|]. apply Hb.
  - case_decide as Hlen; [|done]. intros [= <-]. eexists. split; [done|].
    split.
    + rewrite length_zip_with. simpl in *. lia.
    + intros j Hj. rewrite lookup_zip_with, Hj. simpl.
      destruct ((b :: b' :: k) !! j) eqn:E; [done|].
      apply lookup_ge_None in E. apply lookup_lt_Some in Hj.
      simpl in *. lia.
Qed.

Lemma take_list_Ok {A} (l : list A) idx : forall r,
  take_list l idx = Ok r ->
  length r = length idx
  /\ forall k i, idx !! k = Some i -> is_Some (l !! i) /\ r !! k = l !! i.
Proof.
  induction idx as [|i idx IH]; intros r; simpl.
  { intros [= <-]. by split. }
  destruct (l !! i) as [a|] eqn:Ea; [|done].
  destruct (take_list l idx) as [r'|]; [|done]. simpl. intros [= <-].
  destruct (IH r' eq_refl) as [Hlen Hr]. split; [simpl; lia|].
  intros [|k] i' Hk; simplify_eq /=; [by rewrite Ea|by apply Hr].
Qed.

(** A flag set at [j] either sits at the index [j] has among the flagged
    positions, or some flag sits at or beyond the number of flags. *)
Lemma flag_beyond_count l : forall j,
  l !! j = Some true ->
  rank l j = j \/ exists i, (count_true l <= i)%nat /\ l !! i = Some true.
Proof.
  induction l as [|b l IH] using rev_ind; intros j Hj; [done|].
  destruct (decide (rank (l ++ [b]) j = j)) as [|Hne]; [by left|right].
  pose proof (rank_le (l ++ [b]) j) as Hle.
  destruct (decide (j < length l)%nat) as [Hlt|Hge].
  - rewrite lookup_app_l in Hj by done.
    assert (rank (l ++ [b]) j = rank l j) as Er.
    { unfold rank. by rewrite take_app_le by lia. }
    destruct (IH j Hj) as [?|(i & Hi & Hli)]; [lia|].
    destruct b.
    + exists (length l). rewrite count_true_app, count_true_cons.
      change (count_true []) with 0%nat. simpl.
      split; [|by rewrite list_lookup_middle].
      pose proof (rank_le_count l j) as H1.
      pose proof (count_true_length (drop j l)) as H2.
      assert (count_true l = rank l j + count_true (drop j l))%nat as E.
      { unfold rank. by rewrite <-count_true_app, take_drop. }
      rewrite length_drop in H2. lia.
    + exists i. rewrite count_true_app, count_true_cons.
      change (count_true []) with 0%nat. simpl.
      split; [lia|]. rewrite lookup_app_l; [done|]. by eapply lookup_lt_Some.
  - assert (j = length l) as ->.
    { apply lookup_lt_Some in Hj. rewrite length_app in Hj. simpl in Hj. lia. }
    rewrite list_lookup_middle in Hj by done. simplify_eq.
    exists (length l). split; [|by rewrite list_lookup_middle].
    rewrite count_true_app, count_true_cons.
      change (count_true []) with 0%nat. simpl.
    assert (rank (l ++ [true]) (length l) = count_true l) as Er.
    { unfold rank. by rewrite take_app_length. }
    lia.
Qed.

(** [m += (v >= phi)] with as many counters as flags sets the flag wherever
    the counter has reached [phi]. *)
Lemma np_iadd_ge l cs phi m j c :
  np_iadd (Vec1 l) (np_ge (Vec1 cs) phi) = Ok m ->
  length cs = length l ->
  cs !! j = Some c -> phi <= c ->
  exists l', m = Vec1 l' /\ l' !! j = Some true.
Proof.
  intros Em Hlen Hj Hphi. unfold np_ge in Em.
  assert (exists a, l !! j = Some a) as [a Ha].
  { apply lookup_lt_is_Some. rewrite <-Hlen. by eapply lookup_lt_Some. }
  remember ((fun a => bool_decide (phi <= a)) <$> cs) as k eqn:Ek.
  assert (k !! j = Some true) as Hk.
  { subst k. rewrite list_lookup_fmap, Hj. simpl.
    by rewrite bool_decide_true by done. }
  assert (length k = length l) as Hlen'.
  { subst k. by rewrite length_fmap. }
  clear Ek. destruct k as [|b [|b' k]]; [done| |]; simpl in Em.
  - destruct j; simplify_eq /=. eexists. split; [done|].
    rewrite list_lookup_fmap, Ha. simpl. by rewrite orb_true_r.
  - rewrite decide_True in Em by done. simplify_eq. eexists. split; [done|].
    rewrite lookup_zip_with, Ha. simpl. rewrite Hk. simpl.
    by rewrite orb_true_r.
Qed.

(** *** Increments *)

(** [m[i, j] += 1] needs the entry to exist, adds one to it and leaves
    every other entry as it is. *)
Lemma np_incr2_get m i j m' :
  np_incr2 m i j = Ok m' ->
  is_Some (mat_get m i j)
  /\ forall i' j',
      mat_get m' i' j'
      = (fun a => if decide (i' = i /\ j' = j) then wrap64 (a + 1) else a)
          <$> mat_get m i' j'.
Proof.
  destruct m as [|rows]; simpl; [done|].
  destruct (rows !! i) as [row|] eqn:Er; [|done].
  destruct (row !! j) as [a|] eqn:Ea; [|done]. intros [= <-].
  split; [by eexists|]. intros i' j'. simpl.
  destruct (decide (i' = i)) as [->|Hi].
  - rewrite list_lookup_insert_eq by by eapply lookup_lt_Some. rewrite Er.
    destruct (decide (j' = j)) as [->|Hj].
    + rewrite list_lookup_insert_eq by by eapply lookup_lt_Some.
      rewrite Ea. simpl. by rewrite decide_True.
    + rewrite list_lookup_insert_ne by done.
      destruct (row !! j'); simpl; [|done]. rewrite decide_False; [done|].
      by intros [_ ?].
  - rewrite list_lookup_insert_ne by done.
    destruct (rows !! i') as [row'|]; simpl; [|done].
    destruct (row' !! j'); simpl; [|done]. rewrite decide_False; [done|].
    by intros [? _].
Qed.

Lemma np_incr2_square n m i j m' :
  np_incr2 m i j = Ok m' -> square n m -> square n m'.
Proof.
  destruct m as [|rows]; simpl; [done|].
  destruct (rows !! i) as [row|] eqn:Er; [|done].
  destruct (row !! j) as [a|] eqn:Ea; [|done]. intros [= <-] [Hn Hrows].
  simpl. split; [by rewrite length_insert|].
  apply Forall_insert; [done|]. rewrite length_insert.
  rewrite Forall_forall in Hrows. apply Hrows.
  by eapply list_elem_of_lookup_2.
Qed.








End PyFacts.

(** ** Properties *)

Module TopoARTFacts.

Import TopoART PyFacts.

Section facts.

Context {sample weight cache extra : Type}.
Context {base_module : BaseART.module sample weight cache extra}.
Variable check_dimensions : list sample -> bool.
Variable recursion_limit : nat.

Abbreviation state := (TopoART.state sample weight cache extra).
Abbreviation new_weight := (TopoART.new_weight recursion_limit).
Abbreviation step_fit := (TopoART.step_fit recursion_limit).
Abbreviation fit_samples := (TopoART.fit_samples recursion_limit).
Abbreviation fit_epochs := (TopoART.fit_epochs recursion_limit).
Abbreviation fit := (TopoART.fit check_dimensions recursion_limit).

Ltac munfold :=
  unfold TopoART.fit, fit_begin, step_prune, prune, prune_sample, choices, update,
    set_weight, add_weight, TopoART.new_weight, mbind, ret, raise, get, modify, lift
    in *.

Ltac mcases :=
  repeat (simplify_eq /=;
          match goal with
          | H : context [match ?r with Ok _ => _ | Raise _ => _ end] |- _ =>
              destruct r eqn:?
          | H : context [let (_, _) := ?r in _] |- _ => destruct r eqn:?
          | H : context [if ?b then _ else _] |- _ => destruct b eqn:?
          | H : context [match ?o with Some _ => _ | None => _ end] |- _ =>
              destruct o eqn:?
          end);
  simplify_eq /=.

(** *** The recursion of [new_weight] *)

Lemma new_weight_rec_raises depth (i : sample) p (st : state) :
  is_raise (new_weight_rec depth i p st).1.
Proof.
  revert st. induction depth as [|depth IH]; intros st; simpl; [done|].
  munfold. destruct (np_pad_matrix (adjacency st)); simpl; [apply IH|done].
Qed.

Lemma new_weight_raises (i : sample) p (st : state) : is_raise (new_weight i p st).1.
Proof. apply new_weight_rec_raises. Qed.

Lemma new_weight_not_Ok (i : sample) p (st : state) r :
  (new_weight i p st).1 <> Ok r.
Proof. intros E. pose proof (new_weight_raises i p st) as H. by rewrite E in H. Qed.

(** What the recursion leaves behind on a 2-dimensional adjacency: every
    level pads the three arrays before it calls itself, so at the end of the
    call stack the adjacency has one row for each level more, and so have
    the counters and the mask when they are 1-dimensional. *)
Lemma new_weight_rec_Mat2 depth (i : sample) p : forall (st : state) rows,
  adjacency st = Mat2 rows ->
  exists st' rows',
    new_weight_rec depth i p st = (Raise RecursionError, st')
    /\ adjacency st' = Mat2 rows'
    /\ length rows' = (length rows + depth)%nat
    /\ _counter st' = Nat.iter depth (np_pad_vector 1) (_counter st)
    /\ _permanent_mask st'
       = Nat.iter depth (np_pad_vector false) (_permanent_mask st)
    /\ params st' = params st /\ W st' = W st
    /\ labels_ st' = labels_ st /\ trace st' = trace st.
Proof.
  induction depth as [|depth IH]; intros st rows Ha; simpl.
  { exists st, rows. split_and!; (done || lia). }
  unfold mbind, get, lift, modify. rewrite Ha. simpl.
  match goal with
  | |- context [new_weight_rec depth i p ?s] =>
      edestruct (IH s)
        as (st' & rows' & -> & Ha' & Hlen & Hc & Hm & Hp & HW & Hl & Ht);
        [reflexivity|]
  end.
  exists st', rows'.
  rewrite length_app, length_fmap in Hlen. simpl in Hlen.
  unfold set_permanent_mask, set_counter, set_adjacency in Hc, Hm.
  cbn [_counter _permanent_mask] in Hc, Hm.
  split_and!; try done; try lia.
  - by rewrite Hc, <-Nat.iter_succ_r.
  - by rewrite Hm, <-Nat.iter_succ_r.
Qed.

(** On the 0-dimensional adjacency of the constructor, [np.pad] refuses the
    widths and the object is left as it was. *)
Lemma new_weight_rec_Mat0 depth (i : sample) p (st : state) a :
  adjacency st = Mat0 a ->
  new_weight_rec (S depth) i p st = (Raise ValueError, st).
Proof. intros Ha. simpl. unfold mbind, get, lift. by rewrite Ha. Qed.

(** *** What the loop of [prune] leaves alone *)

Lemma choices_Ok x st r st' :
  choices x st = (Ok r, st') ->
  st' = st /\ W st <> []
  /\ r.1 = activations x (params st) (W st)
  /\ r.2 = caches x (params st) (W st).
Proof.
  munfold. destruct (W st) as [|w ws] eqn:E; [done|].
  intros [= <- <-]. split_and!; [done..| |].
  - simpl. unfold activations. f_equal. by rewrite <-list_fmap_compose.
  - simpl. unfold caches. f_equal. by rewrite <-list_fmap_compose.
Qed.

Lemma prune_sample_frame lm i x st st' :
  prune_sample lm i x st = (Ok tt, st') ->
  params st' = params st /\ W st' = W st /\ adjacency st' = adjacency st
  /\ _permanent_mask st' = _permanent_mask st /\ trace st' = trace st.
Proof. munfold. intros H. mcases; done. Qed.

Lemma prune_samples_frame lm X : forall i st st',
  prune_samples lm i X st = (Ok tt, st') ->
  params st' = params st /\ W st' = W st /\ adjacency st' = adjacency st
  /\ _permanent_mask st' = _permanent_mask st /\ trace st' = trace st.
Proof.
  induction X as [|x X IH]; intros i st st'; simpl.
  - by intros [= <-].
  - unfold mbind at 1.
    destruct (prune_sample lm i x st) as [[[]|] st1] eqn:E1; [|done].
    intros E2. apply prune_sample_frame in E1. apply IH in E2.
    destruct_and!. split_and!; congruence.
Qed.

(** The same for a loop that raises: what it leaves alone, it leaves alone
    whether it returns or not. *)
Lemma prune_sample_keeps lm i x st r st' :
  prune_sample lm i x st = (r, st') ->
  params st' = params st /\ W st' = W st /\ adjacency st' = adjacency st
  /\ _permanent_mask st' = _permanent_mask st /\ trace st' = trace st
  /\ length (labels_ st') = length (labels_ st).
Proof.
  unfold prune_sample, choices, mbind, get, lift, modify, ret, raise, item,
    store.
  simpl. intros H.
  repeat (case_match; simplify_eq /=; rewrite ?length_insert; try done).
Qed.

Lemma prune_samples_keeps lm X : forall i st r st',
  prune_samples lm i X st = (r, st') ->
  params st' = params st /\ W st' = W st /\ adjacency st' = adjacency st
  /\ _permanent_mask st' = _permanent_mask st /\ trace st' = trace st
  /\ length (labels_ st') = length (labels_ st).
Proof.
  induction X as [|x X IH]; intros i st r st'; simpl.
  { by intros [= <- <-]. }
  unfold mbind at 1.
  destruct (prune_sample lm i x st) as [[[]|e] st1] eqn:E1.
  - intros E2. apply prune_sample_keeps in E1. apply IH in E2.
    destruct_and!. split_and!; congruence.
  - intros [= <- <-]. by eapply prune_sample_keeps.
Qed.

(** *** The steps of a prune pass *)

Lemma prune_Ok X st st' :
  prune X st = (Ok tt, st') ->
  exists m perm_labels w c,
    np_iadd (_permanent_mask st)
      (np_ge (_counter st) (BaseART.phi (params st))) = Ok m
    /\ np_where m = Ok perm_labels
    /\ zip_filter (W st) m = Ok w
    /\ np_take (_counter st) perm_labels = Ok c
    /\ prune_samples (label_map perm_labels (labels_ st)) 0 X
         (mkState (params st) w (adjacency st) c m (labels_ st)
            (trace st ++ [EvPrune X])) = (Ok tt, st').
Proof.
  unfold prune, mbind, modify, get, lift. simpl. intros H.
  destruct (np_iadd _ _) as [m|] eqn:Em; [|done]. simpl in H.
  destruct (np_where m) as [pl|] eqn:Ep; [|done]. simpl in H.
  destruct (zip_filter (W st) m) as [w|] eqn:Ew; [|done]. simpl in H.
  destruct (np_take (_counter st) pl) as [c|] eqn:Ec; [|done]. simpl in H.
  by exists m, pl, w, c.
Qed.

Lemma prune_keeps_empty X st st' :
  prune X st = (Ok tt, st') -> W st = [] -> W st' = [].
Proof.
  intros H E. apply prune_Ok in H as (m & pl & w & c & _ & _ & Hw & _ & H).
  apply prune_samples_frame in H as (_ & -> & _). simpl.
  rewrite E in Hw. by destruct m; simplify_eq /=.
Qed.

Lemma step_prune_keeps_empty X st st' :
  step_prune X st = (Ok tt, st') -> W st = [] -> W st' = [].
Proof.
  unfold step_prune, mbind, get, lift, ret. intros H E.
  destruct (Py.sum (_counter st)) as [s|]; [|done].
  destruct (_ && _); [by eapply prune_keeps_empty|by simplify_eq].
Qed.

(** *** Leaving the loop of [step_fit] at once *)

Lemma resonance_search_none fuel x mrf T_cache T resonant_c st :
  any_positive T = false ->
  resonance_search (S fuel) x mrf T_cache T resonant_c st
  = (Ok (Exhausted resonant_c), st).
Proof. intros E. simpl. by rewrite E. Qed.

Lemma step_fit_no_activation x mrf st :
  any_positive (activations x (params st) (W st)) = false ->
  is_raise (step_fit x mrf st).1.
Proof.
  intros Hpos. unfold step_fit, mbind at 1, get. case_bool_decide as Hlen.
  - unfold mbind at 1.
    pose proof (new_weight_raises x (params st) st) as Hr.
    by destruct (new_weight x (params st) st) as [[w|e] st'].
  - unfold mbind at 1. destruct (choices x st) as [[Tc|] st1] eqn:Ec; [|done].
    apply choices_Ok in Ec as (-> & _ & ET & _).
    unfold mbind at 1. rewrite Nat.add_comm. simpl Nat.add.
    rewrite resonance_search_none by by rewrite ET.
    rewrite bool_decide_true by lia.
    unfold mbind, get.
    pose proof (new_weight_raises x (params st) st) as Hr.
    by destruct (new_weight x (params st) st) as [[w|e] st'].
Qed.

Lemma fit_raises x X mrf n st : is_raise (fit (x :: X) mrf (S n) st).1.
Proof.
  unfold fit, mbind at 1.
  destruct (fit_begin check_dimensions (x :: X) st) as [[[]|] st1] eqn:Eb; [|done].
  assert (W st1 = []) as HW.
  { revert Eb. munfold. intros Eb. by mcases. }
  simpl. unfold mbind at 1 2.
  destruct (step_prune (x :: X) st1) as [[[]|] st2] eqn:Ep; [|done].
  apply step_prune_keeps_empty in Ep; [|done].
  pose proof (step_fit_no_activation x mrf st2) as Hr.
  specialize (Hr ltac:(by rewrite Ep)). unfold mbind at 1.
  by destruct (step_fit x mrf st2) as [[c|e] st3].
Qed.

(** *** One resonance *)

Lemma set_weight_Ok idx (w : weight) (st st' : state) :
  set_weight idx w st = (Ok tt, st') ->
  is_Some (W st !! idx) /\ st' = set_W st (<[idx := w]> (W st)).
Proof.
  unfold set_weight, mbind, get, lift, modify, store.
  destruct (W st !! idx) eqn:E; simpl; [|done]. by intros [= <-].
Qed.

Lemma update_Ok (i : sample) w p c (st : state) w' st' :
  update i w p c st = (Ok w', st') ->
  w' = BaseART.update i w p c
  /\ ((default (-1) (BaseART.resonant_c c) < 0
       /\ st' = log st (EvUpdate i w p c))
      \/ (exists cur a,
            0 <= default (-1) (BaseART.resonant_c c)
            /\ BaseART.current_c c = Some cur
            /\ np_incr2 (adjacency st)
                 (Z.to_nat (default (-1) (BaseART.resonant_c c))) cur = Ok a
            /\ st' = log (log (set_adjacency st a)
                            (EvAdjacency
                               (Z.to_nat (default (-1) (BaseART.resonant_c c)))
                               cur))
                        (EvUpdate i w p c))).
Proof.
  unfold update. case_bool_decide as Hr.
  - destruct (BaseART.current_c c) as [cur|]; [|done].
    unfold mbind, get, lift, modify, ret.
    destruct (np_incr2 _ _ _) as [a|] eqn:Ea; simpl; [|done].
    intros [= <- <-]. split; [done|]. right. by exists cur, a.
  - unfold mbind, modify, ret. intros [= <- <-]. split; [done|]. left.
    split; [lia|done].
Qed.

Lemma second_resonance_search fuel (x : sample) mrf T_cache :
  forall T rc (st : state) r st',
  0 <= rc ->
  resonance_search fuel x mrf T_cache T rc st = (Ok r, st') ->
  second_resonance x mrf T_cache T rc st r st'.
Proof.
  induction fuel as [|fuel IH]; intros T rc st r st' Hrc; simpl; [done|].
  destruct (any_positive T) eqn:Hany.
  2:{ intros [= <- <-]. exists T. split; [constructor|]. by left. }
  unfold mbind at 1, get. unfold mbind at 1, lift, item.
  destruct (W st !! np_argmax T) as [w|] eqn:Ew; [|done].
  unfold mbind at 1.
  destruct (T_cache !! np_argmax T) as [k|] eqn:Ek; [|done].
  destruct (_ && _) eqn:Epass.
  2:{ intros (T' & Hscan & H)%IH; [|done]. exists T'. split; [|done].
      by eapply scan_reject. }
  rewrite !bool_decide_false by lia.
  unfold mbind at 1.
  destruct (update _ _ _ _ st) as [[w'|] st1] eqn:Eu; [|done].
  apply update_Ok in Eu as [-> [[? _]|(cur & a & _ & Hcur & Ha & ->)]];
    simpl in *; [lia|]. simplify_eq.
  unfold mbind at 1.
  destruct (set_weight _ _ _) as [[[]|] st2] eqn:Es; [|done].
  apply set_weight_Ok in Es as [_ ->]. intros [= <- <-].
  exists T. split; [constructor|].
  right. eexists _, _, _. split_and!; [done..|].
  unfold after_update, set_W, log, set_adjacency; simpl.
  by rewrite <-app_assoc.
Qed.

Lemma first_resonance_search fuel (x : sample) mrf T_cache :
  forall T rc (st : state) r st',
  rc < 0 ->
  resonance_search fuel x mrf T_cache T rc st = (Ok r, st') ->
  first_resonance x mrf T_cache T rc st r st'.
Proof.
  induction fuel as [|fuel IH]; intros T rc st r st' Hrc; simpl; [done|].
  destruct (any_positive T) eqn:Hany.
  2:{ intros [= <- <-]. exists T. split; [constructor|]. by left. }
  unfold mbind at 1, get. unfold mbind at 1, lift, item.
  destruct (W st !! np_argmax T) as [w|] eqn:Ew; [|done].
  unfold mbind at 1.
  destruct (T_cache !! np_argmax T) as [k|] eqn:Ek; [|done].
  destruct (_ && _) eqn:Epass.
  2:{ intros (T' & Hscan & H)%IH; [|done]. exists T'. split; [|done].
      by eapply scan_reject. }
  rewrite !bool_decide_true by lia.
  unfold mbind at 1.
  destruct (update _ _ _ _ st) as [[w'|] st1] eqn:Eu; [|done].
  apply update_Ok in Eu as [-> [[_ ->]|(cur & a & ? & _)]];
    simpl in *; [|lia].
  unfold mbind at 1.
  destruct (set_weight _ _ _) as [[[]|] st2] eqn:Es; [|done].
  apply set_weight_Ok in Es as [_ ->]. intros Hs.
  apply second_resonance_search in Hs; [|lia].
  exists T. split; [constructor|].
  right. eexists _, _. split_and!; [done..|]. exact Hs.
Qed.

(** *** A successful [step_fit] *)

Lemma step_fit_Ok (x : sample) mrf (st : state) label st' :
  step_fit x mrf st = (Ok label, st') ->
  exists T1 w1 k1 r,
    let T := activations x (params st) (W st) in
    let T_cache := caches x (params st) (W st) in
    let c1 := np_argmax T1 in
    let c := update_cache x (params st) (-1) c1 w1 k1 in
    scan x mrf T_cache st T T1
    /\ any_positive T1 = true
    /\ label = Z.of_nat c1
    /\ W st !! c1 = Some w1
    /\ T_cache !! c1 = Some k1
    /\ passes x mrf (params st) c1 w1 k1 = true
    /\ second_resonance x mrf T_cache T1 (Z.of_nat c1)
         (after_update st c1 (BaseART.update x w1 (params st) c)
            (adjacency st) [EvUpdate x w1 (params st) c])
         r st'.
Proof.
  unfold TopoART.step_fit, mbind at 1, get. case_bool_decide as Hlen.
  { unfold mbind at 1. intros H.
    destruct (TopoART.new_weight _ _ _ _) as [[w|e] st1] eqn:E; [|done].
    by apply (f_equal fst), new_weight_not_Ok in E. }
  unfold mbind at 1. destruct (choices x st) as [[Tc|] st1] eqn:Ec; [|done].
  apply choices_Ok in Ec as (-> & _ & ET & EC).
  unfold mbind at 1.
  destruct (resonance_search _ _ _ _ _ _ _) as [[r|] st2] eqn:Es; [|done].
  apply first_resonance_search in Es; [|lia].
  rewrite ET, EC in Es.
  destruct Es as (T1 & Hscan & [(_ & -> & ->)|(w1 & k1 & Hany & Hw & Hk & Hp & Hs)]).
  { rewrite bool_decide_true by lia. unfold mbind, get. intros H.
    destruct (TopoART.new_weight _ _ _ _) as [[w|e] st1] eqn:E; [|done].
    by apply (f_equal fst), new_weight_not_Ok in E. }
  intros H. exists T1, w1, k1, r. simpl.
  assert (label = Z.of_nat (np_argmax T1) /\ st' = st2) as [-> ->].
  { destruct Hs as (T2 & _ & [(_ & -> & _)|(? & ? & ? & _ & -> & _)]).
    - rewrite bool_decide_false in H by lia. unfold ret in H.
      by simplify_eq.
    - unfold ret in H. by simplify_eq. }
  by split_and!.
Qed.

(** *** The loop completes *)






(** *** The bound on the loop is never reached *)

Lemma update_within_fuel (i : sample) w p c (st : state) :
  (update i w p c st).1 <> Raise LoopFuel.
Proof.
  unfold update, mbind, get, lift, modify, ret, raise, np_incr2.
  case_bool_decide; [|done].
  destruct (BaseART.current_c c); [|done].
  destruct (adjacency st) as [|rows]; [done|].
  destruct (rows !! _) as [row|]; [|done]. by destruct (row !! _).
Qed.

Lemma set_weight_within_fuel idx (w : weight) (st : state) :
  (set_weight idx w st).1 <> Raise LoopFuel.
Proof.
  unfold set_weight, mbind, get, lift, modify, store.
  by destruct (W st !! idx).
Qed.

Lemma new_weight_rec_within_fuel depth (i : sample) p (st : state) :
  (new_weight_rec depth i p st).1 <> Raise LoopFuel.
Proof.
  revert st. induction depth as [|depth IH]; intros st; simpl; [done|].
  unfold mbind, get, lift, modify.
  destruct (adjacency st); simpl; [done|]. apply IH.
Qed.

Lemma resonance_search_within_fuel fuel (x : sample) mrf T_cache :
  forall T rc (st : state),
  (count_positive T + (if bool_decide (rc < 0)%Z then 1 else 0) < fuel)%nat ->
  (resonance_search fuel x mrf T_cache T rc st).1 <> Raise LoopFuel.
Proof.
  induction fuel as [|fuel IH]; intros T rc st Hfuel; simpl; [lia|].
  destruct (any_positive T) eqn:Hany; [|done].
  apply np_argmax_positive in Hany as (t & Ht & Hpos).
  unfold mbind at 1, get. unfold mbind at 1, lift, item.
  destruct (W st !! np_argmax T) as [w|]; [|done].
  unfold mbind at 1. destruct (T_cache !! np_argmax T) as [k|]; [|done].
  destruct (_ && _).
  - unfold mbind at 1.
    destruct (update _ _ _ _ st) as [[w'|e] st1] eqn:Eu.
    2:{ intros [= ->]. by apply (f_equal fst), update_within_fuel in Eu. }
    unfold mbind at 1.
    destruct (set_weight _ _ _) as [[[]|e] st2] eqn:Es.
    2:{ intros [= ->]. by apply (f_equal fst), set_weight_within_fuel in Es. }
    case_bool_decide; [|done]. apply IH.
    rewrite bool_decide_false by lia. lia.
  - apply IH. pose proof (count_positive_masked T _ t Ht Hpos). lia.
Qed.

(** Whatever [step_fit] does, it does within the bound the model puts on
    its loop. *)
Lemma step_fit_within_fuel (x : sample) mrf (st : state) :
  (step_fit x mrf st).1 <> Raise LoopFuel.
Proof.
  unfold TopoART.step_fit, mbind at 1, get. case_bool_decide as Hlen.
  { unfold mbind at 1, TopoART.new_weight.
    destruct (new_weight_rec _ _ _ _) as [[w|e] st1] eqn:E; [done|].
    intros [= ->]. by apply (f_equal fst), new_weight_rec_within_fuel in E. }
  unfold mbind at 1. destruct (choices x st) as [[Tc|e] st1] eqn:Ec.
  2:{ revert Ec. unfold choices, mbind, get, raise, ret.
      destruct (W st); by intros [= <-]. }
  apply choices_Ok in Ec as (-> & _ & _ & _).
  unfold mbind at 1.
  destruct (resonance_search _ _ _ _ _ _ _) as [[r|e] st2] eqn:Es.
  2:{ intros [= ->]. apply (f_equal fst) in Es.
      apply resonance_search_within_fuel in Es; [done|].
      pose proof (count_positive_length Tc.1). rewrite bool_decide_true; lia. }
  destruct r as [label|rc]; [done|]. case_bool_decide; [|done].
  unfold mbind, get, TopoART.new_weight.
  destruct (new_weight_rec _ _ _ _) as [[w|e] st3] eqn:E; [done|].
  intros [= ->]. by apply (f_equal fst), new_weight_rec_within_fuel in E.
Qed.

(** *** Permanence *)

Lemma permanent_protected (st : state) j : permanent st j -> protected st j.
Proof. intros (l & Hl & Hj). exists l. split; [done|by left]. Qed.

Lemma np_take_Ok {A} (v : vector A) idx c :
  np_take v idx = Ok c ->
  exists l r, v = Vec1 l /\ c = Vec1 r /\ length r = length idx
    /\ forall k i, idx !! k = Some i -> is_Some (l !! i) /\ r !! k = l !! i.
Proof.
  destruct v as [|l]; simpl; [done|].
  destruct (take_list l idx) as [r|] eqn:E; simpl; [|done].
  intros [= <-]. apply take_list_Ok in E as [Hlen Hr]. by exists l, r.
Qed.

Lemma np_incr_Ok v i v' :
  np_incr v i = Ok v' ->
  exists l a, v = Vec1 l /\ l !! i = Some a
    /\ v' = Vec1 (<[i := wrap64 (a + 1)]> l).
Proof.
  destruct v as [|l]; simpl; [done|].
  destruct (l !! i) as [a|] eqn:E; [|done]. intros [= <-]. by exists l, a.
Qed.

(** Lines 157-164 for the sample at position [i]. *)
Lemma prune_sample_Ok lm i (x : sample) (st st' : state) :
  prune_sample lm i x st = (Ok tt, st') ->
  exists l, labels_ st !! i = Some l /\
    match lm !! l with
    | Some l' => st' = set_labels st (<[i := Z.of_nat l']> (labels_ st))
    | None =>
        let n := np_argmax (activations x (params st) (W st)) in
        exists cs a,
          W st <> [] /\ _counter st = Vec1 cs /\ cs !! n = Some a
          /\ st' = set_counter
                     (set_labels st (<[i := Z.of_nat n]> (labels_ st)))
                     (Vec1 (<[n := wrap64 (a + 1)]> cs))
    end.
Proof.
  unfold prune_sample, mbind at 1, get. unfold mbind at 1, lift, item, store.
  destruct (labels_ st !! i) as [l|] eqn:El; [|done]. simpl.
  intros H. exists l. split; [done|].
  destruct (lm !! l) as [l'|].
  - revert H. unfold mbind, modify. by intros [= <-].
  - revert H. unfold mbind at 1.
    destruct (choices x st) as [[Tc|] st1] eqn:Ec; [|done].
    apply choices_Ok in Ec as (-> & HW & -> & _).
    unfold mbind, modify, get. simpl.
    destruct (np_incr _ _) as [c|] eqn:Ei; [|done]. intros [= <-].
    apply np_incr_Ok in Ei as (cs & a & Ecs & Ea & ->). by exists cs, a.
Qed.

Lemma prune_sample_counter_len lm i (x : sample) (st st' : state) :
  prune_sample lm i x st = (Ok tt, st') ->
  vec_len (_counter st') = vec_len (_counter st).
Proof.
  intros (l & _ & H)%prune_sample_Ok. destruct (lm !! l).
  - by subst.
  - destruct H as (cs & a & _ & -> & _ & ->). simpl. by rewrite length_insert.
Qed.

Lemma prune_samples_counter_len lm (X : list sample) : forall i (st st' : state),
  prune_samples lm i X st = (Ok tt, st') ->
  vec_len (_counter st') = vec_len (_counter st).
Proof.
  induction X as [|x X IH]; intros i st st'; simpl.
  - by intros [= <-].
  - unfold mbind at 1.
    destruct (prune_sample lm i x st) as [[[]|] st1] eqn:E1; [|done].
    intros E2. apply prune_sample_counter_len in E1. apply IH in E2.
    congruence.
Qed.

(** A prune pass keeps as many weights and counters as there are flags
    set, and leaves the adjacency and the length of the mask as they were;
    it clears no flag, and every flag it leaves set has a counter. *)
Lemma prune_leaves_mask_and_adjacency (X : list sample) (st st' : state) :
  prune X st = (Ok tt, st') ->
  exists l l' cs,
    _permanent_mask st = Vec1 l /\ _permanent_mask st' = Vec1 l'
    /\ length l' = length l
    /\ (forall j, l !! j = Some true -> l' !! j = Some true)
    /\ adjacency st' = adjacency st
    /\ _counter st = Vec1 cs
    /\ (forall i, l' !! i = Some true -> (i < length cs)%nat)
    /\ vec_len (_counter st') = Some (count_true l')
    /\ W st' = select (W st) l'.
Proof.
  intros (m & pl & w & c & Em & Ep & Ew & Ec & Hs)%prune_Ok.
  destruct (_permanent_mask st) as [b|l] eqn:El.
  { destruct (np_ge _ _); simplify_eq /=. }
  apply np_iadd_mono in Em as (l' & -> & Hlen & Hmono). simplify_eq /=.
  apply np_take_Ok in Ec as (cs & r & Ecs & -> & Hr & Htake).
  pose proof (prune_samples_counter_len _ _ _ _ _ Hs) as Hc.
  apply prune_samples_frame in Hs as (_ & -> & -> & -> & _). simpl in *.
  exists l, l', cs. rewrite Hc, Hr, length_where_from.
  split_and!; try done.
  intros i Hi.
  assert (i ∈ where_from 0 l') as Hin.
  { apply elem_of_where_from. by exists i. }
  apply list_elem_of_lookup in Hin as [k Hk].
  apply Htake in Hk as [Hsome _]. by apply lookup_lt_is_Some in Hsome.
Qed.

(** A category whose flag is set when a pass ends is kept by the pass, at its
    new index, and protected from then on. *)
Lemma prune_keeps_flagged (X : list sample) (st st' : state) j w :
  prune X st = (Ok tt, st') ->
  permanent st' j ->
  W st !! j = Some w ->
  W st' !! new_index st' j = Some w /\ protected st' (new_index st' j).
Proof.
  intros (l & l' & cs & _ & Hl' & _ & _ & _ & _ & _ & Hc & HW)%prune_leaves_mask_and_adjacency
         (l0 & Hl0 & Hj) Hw.
  rewrite Hl' in Hl0. simplify_eq. unfold new_index. rewrite Hl', HW.
  split; [by apply select_lookup|].
  exists l0. split; [done|].
  destruct (flag_beyond_count l0 j Hj) as [->|(i & Hi & Hli)]; [by left|].
  right. by exists i, (count_true l0).
Qed.

(** One pass keeps a protected category, at its new index, and protected. *)
Lemma prune_keeps_protected (X : list sample) (st st' : state) j w :
  prune X st = (Ok tt, st') ->
  protected st j ->
  W st !! j = Some w ->
  W st' !! new_index st' j = Some w /\ protected st' (new_index st' j).
Proof.
  intros Hp (l0 & Hl0 & Hj) Hw.
  pose proof Hp as (l & l' & cs & Hl & Hl' & _ & Hmono & _ & Hcs & Hin & _)%prune_leaves_mask_and_adjacency.
  rewrite Hl in Hl0. simplify_eq.
  destruct Hj as [Hj|(i & n & Hn & Hi & Hli)].
  - eapply prune_keeps_flagged; [done| |done]. exists l'. split; [done|].
    by apply Hmono.
  - exfalso. rewrite Hcs in Hn. simpl in Hn. simplify_eq.
    apply Hmono, Hin in Hli. lia.
Qed.

(** With as many counters as flags, a pass sets the flag of every category
    whose counter has reached [phi]. *)
Lemma prune_sets_flag (X : list sample) (st st' : state) l cs j c :
  prune X st = (Ok tt, st') ->
  _permanent_mask st = Vec1 l -> _counter st = Vec1 cs ->
  length cs = length l ->
  cs !! j = Some c -> BaseART.phi (params st) <= c ->
  permanent st' j.
Proof.
  intros (m & pl & w & c0 & Em & _ & _ & _ & Hs)%prune_Ok Hl Hcs Hlen Hj Hphi.
  apply prune_samples_frame in Hs as (_ & _ & _ & Hm & _). simpl in Hm.
  rewrite Hl, Hcs in Em.
  destruct (np_iadd_ge _ _ _ _ _ _ Em Hlen Hj Hphi) as (l' & -> & Hj').
  by exists l'.
Qed.

Lemma second_resonance_frame (x : sample) mrf T_cache T rc (st st' : state) r :
  second_resonance x mrf T_cache T rc st r st' ->
  params st' = params st /\ _counter st' = _counter st
  /\ _permanent_mask st' = _permanent_mask st /\ labels_ st' = labels_ st
  /\ length (W st') = length (W st).
Proof.
  intros (T' & _ & [(_ & _ & ->)|(w2 & k2 & a & _ & _ & _ & _ & _ & _ & ->)]);
    [done|].
  simpl. by rewrite length_insert.
Qed.

(** A successful [step_fit] changes weights, the adjacency and nothing
    else. *)
Lemma step_fit_frame (x : sample) mrf (st st' : state) label :
  step_fit x mrf st = (Ok label, st') ->
  params st' = params st /\ _counter st' = _counter st
  /\ _permanent_mask st' = _permanent_mask st /\ labels_ st' = labels_ st
  /\ length (W st') = length (W st).
Proof.
  intros (T1 & w1 & k1 & r & _ & _ & _ & _ & _ & _ & Hs)%step_fit_Ok.
  apply second_resonance_frame in Hs. simpl in Hs.
  by rewrite length_insert in Hs.
Qed.

(** *** Re-labelling *)

Lemma omap_keys_elem perm_labels (L : list Z) l n :
  (l, n) ∈ omap (fun label => pair label <$> position perm_labels label) L
  <-> l ∈ L /\ position perm_labels l = Some n.
Proof.
  rewrite list_elem_of_omap. split.
  - intros (x & Hx & Hf). destruct (position perm_labels x) eqn:E;
      simplify_eq /=. done.
  - intros [Hl Hp]. exists l. by rewrite Hp.
Qed.

Lemma omap_keys_NoDup perm_labels (L : list Z) :
  NoDup L ->
  NoDup (omap (fun label => pair label <$> position perm_labels label) L).*1.
Proof.
  induction 1 as [|x L Hx HL IH]; simpl; [constructor|].
  destruct (position perm_labels x) as [m|] eqn:E; simpl; [|done].
  constructor; [|done]. intros Hin.
  apply list_elem_of_fmap in Hin as ([l n] & -> & Hin).
  apply omap_keys_elem in Hin as [Hin _]. done.
Qed.

(** The dictionary of lines 150-154 on a label that is in use. *)
Lemma label_map_lookup perm_labels labels l :
  l ∈ labels -> label_map perm_labels labels !! l = position perm_labels l.
Proof.
  intros Hl. unfold label_map.
  assert (NoDup (np_unique labels)) as Hnd.
  { unfold np_unique. rewrite merge_sort_Permutation.
    apply NoDup_remove_dups. }
  assert (l ∈ np_unique labels) as Hin.
  { unfold np_unique. rewrite merge_sort_Permutation.
    by apply elem_of_remove_dups. }
  destruct (position perm_labels l) as [n|] eqn:E.
  - apply elem_of_list_to_map_1; [by apply omap_keys_NoDup|].
    by apply omap_keys_elem.
  - apply not_elem_of_list_to_map_1. intros Hk.
    apply list_elem_of_fmap in Hk as ([l' n'] & -> & Hk).
    apply omap_keys_elem in Hk as [_ Hk]. simpl in *. congruence.
Qed.

Lemma reassignments_cons perm_labels p ws (x : sample) X l labels n :
  reassignments perm_labels p ws (x :: X) (l :: labels) n
  = ((if decide (reassigned perm_labels p ws x l = Some n) then 1 else 0)
     + reassignments perm_labels p ws X labels n)%nat.
Proof.
  unfold reassignments. simpl. rewrite filter_cons. simpl.
  by case_decide.
Qed.

(** The loop of lines 156-164 from position [i] on. *)
Lemma prune_samples_spec perm_labels lm (X : list sample) :
  forall i (st st' : state) cs,
  prune_samples lm i X st = (Ok tt, st') ->
  _counter st = Vec1 cs ->
  (forall k l, (i <= k)%nat -> labels_ st !! k = Some l ->
               lm !! l = position perm_labels l) ->
  length (labels_ st') = length (labels_ st)
  /\ (forall k, (k < i)%nat -> labels_ st' !! k = labels_ st !! k)
  /\ (forall k, (i + length X <= k)%nat -> labels_ st' !! k = labels_ st !! k)
  /\ (forall k x, X !! k = Some x ->
        exists l, labels_ st !! (i + k)%nat = Some l
          /\ labels_ st' !! (i + k)%nat
             = Some (Z.of_nat (relabel perm_labels (params st) (W st) x l)))
  /\ exists cs', _counter st' = Vec1 cs'
        /\ forall n, cs' !! n
             = incr64 (reassignments perm_labels (params st) (W st) X
                         (drop i (labels_ st)) n) <$> cs !! n.
Proof.
  induction X as [|x X IH]; intros i st st' cs; simpl.
  { intros [= <-] Hc _. split_and!; [done..|].
    exists cs. split; [done|]. intros n. unfold reassignments. simpl.
    by rewrite incr64_fmap_0. }
  unfold mbind at 1.
  destruct (prune_sample lm i x st) as [[[]|] st1] eqn:E1; [|done].
  intros E2 Hc Hlm.
  pose proof (prune_sample_frame _ _ _ _ _ E1) as (Hp1 & HW1 & _).
  apply prune_sample_Ok in E1 as (l & Hl & E1).
  rewrite (Hlm i l) in E1 by done.
  assert (exists v cs1,
    labels_ st1 = <[i := Z.of_nat v]> (labels_ st)
    /\ v = relabel perm_labels (params st) (W st) x l
    /\ _counter st1 = Vec1 cs1
    /\ forall n, cs1 !! n
         = incr64 (if decide (reassigned perm_labels (params st) (W st) x l
                              = Some n) then 1 else 0)%nat <$> cs !! n)
    as (v & cs1 & Hl1 & Hv & Hc1 & Hcs1).
  { unfold relabel, reassigned.
    destruct (position perm_labels l) as [l'|] eqn:El'.
    - subst st1. exists l', cs. split_and!; [done..|].
      intros n. rewrite decide_False by done.
      by rewrite incr64_fmap_0.
    - destruct E1 as (cs0 & a & _ & Hc0 & Ha & ->).
      rewrite Hc in Hc0. simplify_eq. eexists _, _.
      split_and!; [done..|]. simpl. intros n.
      destruct (decide (np_argmax (activations x (params st) (W st)) = n))
        as [<-|Hne].
      + rewrite decide_True by done.
        rewrite list_lookup_insert_eq by by eapply lookup_lt_Some.
        rewrite Ha. simpl. done.
      + rewrite decide_False by congruence.
        rewrite list_lookup_insert_ne by done.
        by rewrite incr64_fmap_0. }
  destruct (IH (S i) st1 st' cs1 E2 Hc1) as (Hlen & Hlt & Hge & Hpos & cs' & Hc' & Hcs').
  { intros k l0 Hk Hl0. apply (Hlm k); [lia|].
    rewrite Hl1, list_lookup_insert_ne in Hl0 by lia. done. }
  rewrite Hp1, HW1 in *.
  split_and!.
  - by rewrite Hlen, Hl1, length_insert.
  - intros k Hk. rewrite Hlt, Hl1 by lia.
    by rewrite list_lookup_insert_ne by lia.
  - intros k Hk. rewrite Hge, Hl1 by lia.
    by rewrite list_lookup_insert_ne by lia.
  - intros [|k] x' Hx'; simplify_eq /=.
    + exists l. rewrite Nat.add_0_r. split; [done|].
      rewrite Hlt, Hl1 by lia.
      rewrite list_lookup_insert_eq by by eapply lookup_lt_Some. done.
    + destruct (Hpos k x' Hx') as (l0 & Hl0 & Hl0').
      exists l0. rewrite Nat.add_succ_r. split; [|done].
      rewrite Hl1, list_lookup_insert_ne in Hl0 by lia. done.
  - exists cs'. split; [done|]. intros n. rewrite Hcs', Hcs1.
    rewrite (drop_S _ _ _ Hl), reassignments_cons.
    rewrite Hl1, drop_insert_lt by lia.
    by rewrite incr64_fmap_add.
Qed.

Lemma step_prune_Ok (X : list sample) (st st' : state) :
  step_prune X st = (Ok tt, st') -> st' = st \/ prune X st = (Ok tt, st').
Proof.
  unfold step_prune, mbind, get, lift, ret.
  destruct (Py.sum (_counter st)); [|done].
  destruct (_ && _); [by right|]. intros [= <-]. by left.
Qed.

(** *** Category creation *)

(** C1.  What the code does where a category has to be created:
    [new_weight] calls itself and never returns, so [step_fit] raises for
    every sample none of whose activations is positive (in particular when
    there is no category yet), whatever the depth of the call stack, and
    [fit] raises on every data set that has a sample. *)
Theorem new_category_is_never_created :
  (forall (i : sample) p (st : state), is_raise (new_weight i p st).1)
  /\ (forall (x : sample) mrf (st : state),
        W st = [] \/ any_positive (activations x (params st) (W st)) = false ->
        is_raise (step_fit x mrf st).1)
  /\ (forall (x : sample) X mrf n (st : state),
        is_raise (fit (x :: X) mrf (S n) st).1).
Proof.
  split_and!.
  - apply new_weight_raises.
  - intros x mrf st [HW|Hpos]; apply step_fit_no_activation; [|done].
    by rewrite HW.
  - apply fit_raises.
Qed.

(** *** Resonance *)


(** C6.  The wrapper's [update] leaves the adjacency as it is when no
    resonant category is recorded in the cache; when one is, it increments
    the entry [(resonant_c, current_c)] by one, leaves every other entry as
    it is, and then calls the [update] of the base module; it does not touch
    the counters.  A [step_fit] call that returns leaves the counters as they
    are; without a second resonance it leaves the adjacency as it is; with
    one, between the categories [c1] and [c2], the entry [(c1, c2)] is
    incremented by one right before the update of [c2] by the base module,
    and every other entry is as before.  Prune passes do not touch the
    adjacency. *)
Theorem second_resonance_increments_one_entry :
  (forall (i : sample) w p c (st : state) w' st',
     update i w p c st = (Ok w', st') ->
     let r := default (-1) (BaseART.resonant_c c) in
     w' = BaseART.update i w p c
     /\ _counter st' = _counter st
     /\ ((r < 0
          /\ adjacency st' = adjacency st
          /\ trace st' = trace st ++ [EvUpdate i w p c])
         \/ (exists cur,
               0 <= r
               /\ BaseART.current_c c = Some cur
               /\ trace st'
                  = trace st ++ [EvAdjacency (Z.to_nat r) cur; EvUpdate i w p c]
               /\ is_Some (mat_get (adjacency st) (Z.to_nat r) cur)
               /\ forall i j,
                    mat_get (adjacency st') i j
                    = (fun a => if decide (i = Z.to_nat r /\ j = cur)
                                then wrap64 (a + 1) else a)
                        <$> mat_get (adjacency st) i j)))
  /\ (forall (x : sample) mrf (st : state) label st',
        step_fit x mrf st = (Ok label, st') ->
        _counter st' = _counter st
        /\ exists c1 w1 u1,
            label = Z.of_nat c1 /\
            ((adjacency st' = adjacency st
              /\ trace st' = trace st ++ [EvUpdate x w1 (params st) u1])
             \/ (exists c2 w2 u2,
                   BaseART.resonant_c u2 = Some (Z.of_nat c1)
                   /\ BaseART.current_c u2 = Some c2
                   /\ trace st'
                      = trace st ++ [EvUpdate x w1 (params st) u1;
                                     EvAdjacency c1 c2;
                                     EvUpdate x w2 (lower (params st)) u2]
                   /\ is_Some (mat_get (adjacency st) c1 c2)
                   /\ forall i j,
                        mat_get (adjacency st') i j
                        = (fun a => if decide (i = c1 /\ j = c2)
                                    then wrap64 (a + 1) else a)
                            <$> mat_get (adjacency st) i j)))
  /\ (forall (X : list sample) (st st' : state),
        prune X st = (Ok tt, st') \/ step_prune X st = (Ok tt, st') ->
        adjacency st' = adjacency st).
Proof.
  split_and!.
  - intros i w p c st w' st' [-> H]%update_Ok. simpl. split; [done|].
    destruct H as [[Hr ->]|(cur & a & Hr & Hcur & Ha & ->)]; simpl.
    + split; [done|]. left. by split_and!.
    + split; [done|]. right. exists cur.
      apply np_incr2_get in Ha as [Hsome Hget].
      split_and!; [done..|by rewrite <-app_assoc|done|done].
  - intros x mrf st label st' H.
    pose proof (step_fit_frame _ _ _ _ _ H) as (_ & Hc & _).
    split; [done|].
    apply step_fit_Ok in H
      as (T1 & w1 & k1 & r & _ & _ & -> & _ & _ & _ & Hs).
    eexists (np_argmax T1), w1, _. split; [done|].
    destruct Hs as (T2 & _ & [(_ & _ & ->)|(w2 & k2 & a & H)]).
    + left. by split.
    + simpl in H. destruct H as (_ & _ & _ & _ & _ & Ha & ->).
      right.
      exists (np_argmax T2), w2,
        (update_cache x (params st) (Z.of_nat (np_argmax T1))
           (np_argmax T2) w2 k2).
      simpl. rewrite Nat2Z.id in Ha |- *.
      apply np_incr2_get in Ha as [Hsome Hget].
      split_and!; [done..|by rewrite <-app_assoc|done|done].
  - assert (forall (X : list sample) (st st' : state),
              prune X st = (Ok tt, st') -> adjacency st' = adjacency st) as Hp.
    { intros X st st' (m & pl & w & c & _ & _ & _ & _ & Hs)%prune_Ok.
      by apply prune_samples_frame in Hs as (_ & _ & -> & _). }
    intros X st st' [H|[->|H]%step_prune_Ok]; [by eapply Hp|done|by eapply Hp].
Qed.

(** *** The trigger of a prune pass *)

Lemma prune_trace (X : list sample) (st st' : state) :
  prune X st = (Ok tt, st') -> trace st' = trace st ++ [EvPrune X].
Proof.
  intros (m & pl & w & c & _ & _ & _ & _ & Hs)%prune_Ok.
  by apply prune_samples_frame in Hs as (_ & _ & _ & _ & ->).
Qed.

(** A prune pass is on record in the trace whether it completes or not,
    and it changes neither the parameters nor the adjacency; the weights it
    leaves are those it was given or, once line 147 has run, those of them
    that the mask selects. *)
Lemma prune_keeps (X : list sample) (st : state) r st' :
  prune X st = (r, st') ->
  params st' = params st /\ adjacency st' = adjacency st
  /\ trace st' = trace st ++ [EvPrune X]
  /\ length (labels_ st') = length (labels_ st)
  /\ (W st' = W st
      \/ exists l', _permanent_mask st' = Vec1 l' /\ W st' = select (W st) l').
Proof.
  unfold prune, mbind, modify, get, lift. simpl.
  destruct (np_iadd _ _) as [m|e] eqn:Em; simpl.
  2:{ intros [= <- <-]. split_and!; auto. }
  destruct (np_where m) as [pl|e] eqn:Ep; simpl.
  2:{ intros [= <- <-]. split_and!; auto. }
  destruct (zip_filter (W st) m) as [w|e] eqn:Ew; simpl.
  2:{ intros [= <- <-]. split_and!; auto. }
  assert (exists l', m = Vec1 l' /\ w = select (W st) l') as (l' & -> & ->).
  { destruct m as [|l']; simplify_eq /=. by exists l'. }
  destruct (np_take (_counter st) pl) as [c|e] eqn:Ec; simpl.
  2:{ intros [= <- <-]. split_and!; eauto. }
  intros H. apply prune_samples_keeps in H as (-> & -> & -> & -> & -> & ->).
  split_and!; eauto.
Qed.



(** *** What a call leaves, whether it returns or raises *)

Lemma logged_refl P (st : state) : logged P st st.
Proof. exists []. by rewrite app_nil_r. Qed.

Lemma logged_same P (st st' : state) : trace st' = trace st -> logged P st st'.
Proof. intros E. exists []. by rewrite app_nil_r. Qed.

Lemma logged_trans P (st1 st2 st3 : state) :
  logged P st1 st2 -> logged P st2 st3 -> logged P st1 st3.
Proof.
  intros (e1 & E1 & H1) (e2 & E2 & H2). exists (e1 ++ e2).
  split; [by rewrite E2, E1, app_assoc|by apply Forall_app].
Qed.

Lemma logged_impl (P Q : event sample weight cache extra -> Prop)
    (st st' : state) :
  (forall e, P e -> Q e) -> logged P st st' -> logged Q st st'.
Proof.
  intros HPQ (evs & E & H). exists evs. split; [done|].
  by eapply Forall_impl.
Qed.


Lemma update_keeps (i : sample) w p c (st : state) r st' :
  update i w p c st = (r, st') ->
  params st' = params st /\ W st' = W st /\ _counter st' = _counter st
  /\ _permanent_mask st' = _permanent_mask st /\ labels_ st' = labels_ st
  /\ logged no_prune st st'.
Proof.
  unfold update, mbind, get, lift, modify, ret, raise. intros H.
  case_bool_decide.
  - destruct (BaseART.current_c c) as [cur|]; simplify_eq /=.
    + destruct (np_incr2 _ _ _) as [a|e]; simplify_eq /=.
      * split_and!; try done. unfold logged. simpl. eexists.
        split; [by rewrite <-?app_assoc|]. by repeat constructor.
      * split_and!; try done. apply logged_refl.
    + split_and!; try done. apply logged_refl.
  - simplify_eq /=. split_and!; try done. unfold logged. simpl. eexists.
    split; [done|]. by repeat constructor.
Qed.

Lemma set_weight_keeps idx (w : weight) (st : state) r st' :
  set_weight idx w st = (r, st') ->
  params st' = params st /\ length (W st') = length (W st)
  /\ _counter st' = _counter st /\ _permanent_mask st' = _permanent_mask st
  /\ labels_ st' = labels_ st /\ trace st' = trace st
  /\ adjacency st' = adjacency st.
Proof.
  unfold set_weight, mbind, get, lift, modify, store. intros H.
  destruct (W st !! idx); simplify_eq /=; rewrite ?length_insert; done.
Qed.

Lemma new_weight_rec_keeps depth (i : sample) p : forall (st : state) r st',
  new_weight_rec depth i p st = (r, st') ->
  params st' = params st /\ W st' = W st /\ labels_ st' = labels_ st
  /\ trace st' = trace st.
Proof.
  induction depth as [|depth IH]; intros st r st'; simpl.
  { by intros [= <- <-]. }
  unfold mbind, get, lift, modify.
  destruct (np_pad_matrix (adjacency st)) as [a|e]; simpl.
  - intros H. by apply IH in H.
  - by intros [= <- <-].
Qed.

Lemma resonance_search_keeps fuel (x : sample) mrf T_cache :
  forall T rc (st : state) r st',
  resonance_search fuel x mrf T_cache T rc st = (r, st') ->
  params st' = params st /\ length (W st') = length (W st)
  /\ _counter st' = _counter st /\ _permanent_mask st' = _permanent_mask st
  /\ labels_ st' = labels_ st /\ logged no_prune st st'.
Proof.
  induction fuel as [|fuel IH]; intros T rc st r st'; simpl.
  { intros [= <- <-]. split_and!; try done. apply logged_refl. }
  destruct (any_positive T).
  2:{ intros [= <- <-]. split_and!; try done. apply logged_refl. }
  unfold mbind at 1, get. unfold mbind at 1, lift, item.
  destruct (W st !! np_argmax T) as [w|].
  2:{ intros [= <- <-]. split_and!; try done. apply logged_refl. }
  unfold mbind at 1. destruct (T_cache !! np_argmax T) as [k|].
  2:{ intros [= <- <-]. split_and!; try done. apply logged_refl. }
  destruct (_ && _); [|apply IH].
  unfold mbind at 1.
  destruct (update _ _ _ _ st) as [[w'|e] st1] eqn:Eu.
  2:{ intros [= <- <-].
      apply update_keeps in Eu as (? & -> & ? & ? & ? & ?). by split_and!. }
  apply update_keeps in Eu as (Hp1 & HW1 & Hc1 & Hm1 & Hl1 & Ht1).
  unfold mbind at 1.
  destruct (set_weight _ _ _) as [[[]|e] st2] eqn:Es.
  2:{ intros [= <- <-].
      apply set_weight_keeps in Es as (? & ? & ? & ? & ? & Ht2 & _).
      split_and!; try congruence.
      eapply logged_trans; [done|by apply logged_same]. }
  apply set_weight_keeps in Es as (Hp2 & HW2 & Hc2 & Hm2 & Hl2 & Ht2 & _).
  assert (logged no_prune st st2) as Ht.
  { eapply logged_trans; [done|by apply logged_same]. }
  case_bool_decide.
  - intros (? & ? & ? & ? & ? & ?)%IH. split_and!; try congruence.
    by eapply logged_trans.
  - intros [= <- <-]. split_and!; congruence || done.
Qed.

(** [step_fit] never changes the number of weights, the parameters or the
    labels, and is no prune pass. *)
Lemma step_fit_keeps (x : sample) mrf (st : state) r st' :
  step_fit x mrf st = (r, st') ->
  params st' = params st /\ length (W st') = length (W st)
  /\ labels_ st' = labels_ st /\ logged no_prune st st'.
Proof.
  unfold TopoART.step_fit, mbind at 1, get. case_bool_decide as Hlen.
  { unfold mbind at 1.
    destruct (TopoART.new_weight _ _ _ _) as [[w|e] st1] eqn:E.
    { by apply (f_equal fst), new_weight_not_Ok in E. }
    intros [= <- <-]. apply new_weight_rec_keeps in E as (? & -> & ? & ?).
    split_and!; try done. by apply logged_same. }
  unfold mbind at 1. destruct (choices x st) as [[Tc|e] st1] eqn:Ec.
  2:{ revert Ec. unfold choices, mbind, get, raise, ret.
      destruct (W st); intros [= <- <-]; intros [= <- <-];
        split_and!; try done; apply logged_refl. }
  apply choices_Ok in Ec as (-> & _ & _ & _).
  unfold mbind at 1.
  destruct (resonance_search _ _ _ _ _ _ _) as [[r0|e] st2] eqn:Es.
  2:{ intros [= <- <-].
      apply resonance_search_keeps in Es as (? & ? & _ & _ & ? & ?).
      by split_and!. }
  apply resonance_search_keeps in Es as (Hp & HW & _ & _ & Hl & Ht).
  destruct r0 as [label|rc].
  { intros [= <- <-]. by split_and!. }
  case_bool_decide.
  2:{ intros [= <- <-]. by split_and!. }
  unfold mbind at 1, get. unfold mbind at 1.
  destruct (TopoART.new_weight _ _ _ _) as [[w|e] st3] eqn:E.
  { by apply (f_equal fst), new_weight_not_Ok in E. }
  intros [= <- <-]. apply new_weight_rec_keeps in E as (? & HW3 & ? & ?).
  split_and!; try congruence.
  eapply logged_trans; [done|by apply logged_same].
Qed.

(** [step_prune] runs no prune pass over another data set than the one it
    is given, and never adds a weight. *)
Lemma step_prune_keeps (X : list sample) (st : state) r st' :
  step_prune X st = (r, st') ->
  params st' = params st /\ adjacency st' = adjacency st
  /\ (length (W st') <= length (W st))%nat
  /\ length (labels_ st') = length (labels_ st)
  /\ logged (prune_of X) st st'.
Proof.
  unfold step_prune, mbind, get, lift, ret.
  destruct (Py.sum (_counter st)) as [s|e].
  2:{ intros [= <- <-]. split_and!; try done. apply logged_refl. }
  destruct (_ && _).
  2:{ intros [= <- <-]. split_and!; try done. apply logged_refl. }
  intros (Hp & Ha & Ht & Hl & HW)%prune_keeps. split_and!; try done.
  - destruct HW as [->|(l' & _ & ->)]; [done|].
    clear. revert l'. induction (W st) as [|w ws IH]; intros [|b l']; simpl;
      try lia.
    specialize (IH l'). destruct b; simpl; lia.
  - exists [EvPrune X]. split; [done|]. by repeat constructor.
Qed.

(** *** Prune passes inside [fit] *)

(** The loop of [fit] over the samples, however it ends. *)
Lemma fit_samples_keeps (X : list sample) mrf todo :
  forall i (st : state) r st',
  fit_samples X mrf i todo st = (r, st') ->
  params st' = params st
  /\ (length (W st') <= length (W st))%nat
  /\ length (labels_ st') = length (labels_ st)
  /\ logged (prune_of X) st st'.
Proof.
  induction todo as [|x todo IH]; intros i st r st'; simpl.
  { intros [= <- <-]. split_and!; try done. apply logged_refl. }
  unfold mbind at 1.
  destruct (step_prune X st) as [[[]|e] st1] eqn:E1.
  2:{ intros [= <- <-].
      apply step_prune_keeps in E1 as (? & _ & ? & ? & ?). by split_and!. }
  apply step_prune_keeps in E1 as (Hp1 & _ & HW1 & Hl1 & Ht1).
  unfold mbind at 1.
  destruct (TopoART.step_fit _ x mrf st1) as [[c|e] st2] eqn:E2.
  2:{ intros [= <- <-]. apply step_fit_keeps in E2 as (? & ? & ? & Ht2).
      split_and!; try congruence; try lia.
      eapply logged_trans; [done|].
      eapply logged_impl; [|done]. by intros []. }
  apply step_fit_keeps in E2 as (Hp2 & HW2 & Hl2 & Ht2).
  assert (logged (prune_of X) st st2) as Ht.
  { eapply logged_trans; [done|].
    eapply logged_impl; [|done]. by intros []. }
  unfold mbind at 1, get. unfold mbind at 1, lift, store.
  destruct (labels_ st2 !! i) as [c0|].
  2:{ intros [= <- <-]. split_and!; try congruence; try lia; done. }
  unfold mbind at 1, modify. intros (Hp3 & HW3 & Hl3 & Ht3)%IH.
  simpl in *. rewrite length_insert in Hl3.
  split_and!; try congruence; try lia.
  eapply logged_trans; [done|].
  destruct Ht3 as (evs & E & H). by exists evs.
Qed.

Lemma step_fit_trace (x : sample) mrf (st st' : state) label :
  step_fit x mrf st = (Ok label, st') ->
  exists evs, trace st' = trace st ++ evs
              /\ forall X, EvPrune X ∉ evs.
Proof.
  intros (_ & _ & _ & evs & E & H)%step_fit_keeps. exists evs.
  split; [done|]. intros X HX. rewrite Forall_forall in H.
  by apply (H _ HX).
Qed.


(** A prune pass over [X], position by position. *)
Lemma prune_relabels (X : list sample) (st st' : state) :
  prune X st = (Ok tt, st') ->
  exists perm_labels cs cs',
    np_where (_permanent_mask st') = Ok perm_labels
    /\ np_take (_counter st) perm_labels = Ok (Vec1 cs)
    /\ _counter st' = Vec1 cs'
    /\ length (labels_ st') = length (labels_ st)
    /\ (forall i x, X !! i = Some x ->
          exists l, labels_ st !! i = Some l
            /\ labels_ st' !! i
               = Some (Z.of_nat
                         (relabel perm_labels (params st) (W st') x l)))
    /\ (forall n, cs' !! n
           = incr64 (reassignments perm_labels (params st) (W st') X
                       (labels_ st) n) <$> cs !! n).
Proof.
  intros (m & pl & w & c & Em & Ep & Ew & Ec & Hs)%prune_Ok.
  pose proof Ec as (cs0 & r & _ & -> & _)%np_take_Ok.
  pose proof (prune_samples_frame _ _ _ _ _ Hs) as (_ & HW & _ & Hm & _).
  simpl in HW, Hm.
  eapply (prune_samples_spec pl) in Hs as (Hlen & _ & _ & Hpos & cs' & Hc' & Hcs');
    [|done|].
  2:{ simpl. intros k l _ Hl. apply label_map_lookup.
      by eapply list_elem_of_lookup_2. }
  simpl in *. exists pl, r, cs'. rewrite Hm, HW.
  split_and!; done.
Qed.


(** *** Where the shapes part *)

(** C2.  A prune pass that drops a category from a model whose collections
    have one slot per category leaves a model in which they have not: the
    weights and the counters are shortened, the mask and the adjacency are
    as long as they were. *)
Theorem prune_shortens_weights_and_counters_only (X : list sample)
    (st st' : state) :
  consistent st ->
  prune X st = (Ok tt, st') ->
  (length (W st') < length (W st))%nat ->
  vec_len (_counter st') = Some (length (W st'))
  /\ vec_len (_permanent_mask st') = Some (length (W st))
  /\ adjacency st' = adjacency st
  /\ ~ consistent st'.
Proof.
  intros (Hsq & Hc & Hm)
    (l & l' & cs & Hl & Hl' & Hlen & _ & Ha & _ & _ & Hc' & HW)%prune_leaves_mask_and_adjacency
    Hlt.
  rewrite Hl in Hm. simpl in Hm. injection Hm as Hm.
  assert (length (W st') = count_true l') as HWlen.
  { rewrite HW. apply length_select. congruence. }
  split_and!.
  - by rewrite Hc', HWlen.
  - rewrite Hl'. simpl. by rewrite Hlen, Hm.
  - done.
  - intros (_ & _ & Hm'). rewrite Hl' in Hm'. simpl in Hm'.
    injection Hm' as Hm'. lia.
Qed.

(** *** The start of [fit] *)

(** C4.  The checks and the two assignments at the start of [fit] leave a
    model with no weights and the labels 0, and with the counters, the mask
    and the adjacency it had: those of the model fitted before, if there was
    one. *)
Theorem fit_keeps_counters_of_previous_model (X : list sample) (st st1 : state) :
  fit_begin check_dimensions X st = (Ok tt, st1) ->
  W st1 = [] /\ labels_ st1 = replicate (length X) 0
  /\ _counter st1 = _counter st
  /\ _permanent_mask st1 = _permanent_mask st
  /\ adjacency st1 = adjacency st.
Proof.
  unfold fit_begin, mbind, modify, ret, raise.
  destruct (BaseART.validate_data X); [|done].
  destruct (check_dimensions X); [|done]. by intros [= <-].
Qed.

(** *** The second resonance *)

(** C7.  In a [step_fit] call that returns, with the first resonance at the
    category [c1]: if [c1] passes the test of line 206 again with the weight
    the update gave it, then [c1] is the second resonant category too, and
    the diagonal entry [(c1, c1)] of the adjacency is incremented. *)
Theorem second_resonance_of_the_same_category (x : sample) mrf (st : state)
    label st' :
  step_fit x mrf st = (Ok label, st') ->
  exists c1 w1 k1,
    let w1' := BaseART.update x w1 (params st)
                 (update_cache x (params st) (-1) c1 w1 k1) in
    label = Z.of_nat c1
    /\ W st !! c1 = Some w1
    /\ caches x (params st) (W st) !! c1 = Some k1
    /\ (passes x mrf (params st) c1 w1' k1 = true ->
        EvAdjacency c1 c1 ∈ trace st'
        /\ is_Some (mat_get (adjacency st) c1 c1)
        /\ mat_get (adjacency st') c1 c1
           = (fun a => wrap64 (a + 1)) <$> mat_get (adjacency st) c1 c1).
Proof.
  intros (T1 & w1 & k1 & r & _ & Hany & -> & Hw & Hk & _ & T2 & Hscan & Hs)%step_fit_Ok.
  exists (np_argmax T1), w1, k1. simpl. split_and!; [done..|]. intros Hpass.
  assert (T2 = T1) as ->.
  { inversion Hscan as [|? ? w k _ Hw' Hk' Hrej _]; [done|]. subst.
    simpl in Hw', Hrej.
    rewrite list_lookup_insert_eq in Hw' by by eapply lookup_lt_Some.
    simplify_eq. congruence. }
  destruct Hs as [(? & _)|(w2 & k2 & a & H)]; [congruence|].
  simpl in H. destruct H as (_ & _ & _ & _ & _ & Ha & ->). simpl.
  rewrite Nat2Z.id in Ha |- *.
  apply np_incr2_get in Ha as [Hsome Hget]. split_and!; [|done|].
  - apply elem_of_app. right. apply elem_of_cons. by left.
  - rewrite Hget. destruct Hsome as [v ->]. simpl. by rewrite decide_True.
Qed.

(** *** A permanent category and the next pass *)



(** *** Two runs *)







End facts.

(** *** Runs of the one-dimensional module *)

Section runs.

Import Interval Runs.

Abbreviation step_fit := (@TopoART.step_fit Q Q unit Q art recursion_limit).
Abbreviation fit_begin := (@TopoART.fit_begin Q Q unit Q art check_dimensions).
Abbreviation fit := (@TopoART.fit Q Q unit Q art check_dimensions recursion_limit).
Abbreviation prune := (@TopoART.prune Q Q unit Q art).
Abbreviation step_prune := (@TopoART.step_prune Q Q unit Q art).

(** A prune pass on a model of two categories, the first of them with a
    counter below [phi]: one weight and one counter are left, the mask still
    has two entries and the adjacency two rows and columns. *)
Lemma prune_shortens_weights_and_counters_only_witness :
  exists st',
    consistent two_categories
    /\ prune two_samples two_categories = (Ok tt, st')
    /\ (length (W st') < length (W two_categories))%nat
    /\ length (W st') = 1%nat
    /\ _counter st' = Vec1 [6]
    /\ _permanent_mask st' = Vec1 [false; true]
    /\ adjacency st' = Mat2 [[0; 0]; [0; 0]]
    /\ ~ consistent st'.
Proof.
  eexists.
  assert (consistent two_categories) as Hc.
  { split_and!; [|reflexivity..]. split; [reflexivity|].
    repeat constructor. }
  split; [exact Hc|]. split; [vm_compute; reflexivity|].
  match goal with
  | |- (length (W ?s) < _)%nat /\ _ =>
      assert (length (W s) < length (W two_categories))%nat as Hlt
        by (simpl; lia)
  end.
  split; [exact Hlt|]. do 4 (split; [reflexivity|]).
  exact (proj2 (proj2 (proj2 (@prune_shortens_weights_and_counters_only
                                Q Q unit Q art two_samples two_categories _
                                Hc ltac:(vm_compute; reflexivity) Hlt)))).
Defined.

(** A second [fit] on a wrapper that holds a fitted model: the counter, the
    mask and the adjacency of the old model are in place after the start of
    [fit], and the [step_prune] before the first sample runs a prune pass on
    them. *)
Lemma fit_keeps_counters_of_previous_model_witness :
  exists st1 st2,
    fit_begin two_samples fitted = (Ok tt, st1)
    /\ W st1 = [] /\ labels_ st1 = [0; 0]
    /\ _counter st1 = Vec1 [2]
    /\ _permanent_mask st1 = Vec1 [false]
    /\ adjacency st1 = Mat2 [[0]]
    /\ step_prune two_samples st1 = (Ok tt, st2)
    /\ trace st2 = [EvPrune two_samples]
    /\ _permanent_mask st2 = Vec1 [true].
Proof.
  eexists _, _. split; [vm_compute; reflexivity|].
  pose proof (@fit_keeps_counters_of_previous_model Q Q unit Q art
                check_dimensions two_samples fitted _
                ltac:(vm_compute; reflexivity))
    as (HW & Hl & Hc & Hm & Ha).
  split; [exact HW|]. split; [exact Hl|]. split; [exact Hc|].
  split; [exact Hm|]. split; [exact Ha|].
  split; [vm_compute; reflexivity|]. split; reflexivity.
Defined.

(** [step_fit] of the sample 1/2 on a model whose one category has the
    weight 1/2: the category resonates twice, as the first and as the
    second, and the diagonal entry of the adjacency becomes 1. *)
Lemma second_resonance_of_the_same_category_witness :
  exists st',
    step_fit (1 # 2)%Q None one_category = (Ok 0, st')
    /\ consistent one_category
    /\ adjacency st' = Mat2 [[1]]
    /\ EvAdjacency 0 0 ∈ trace st'.
Proof.
  eexists. split; [vm_compute; reflexivity|].
  split.
  { split_and!; [|reflexivity..]. split; [reflexivity|]. repeat constructor. }
  split; [reflexivity|].
  destruct (@second_resonance_of_the_same_category Q Q unit Q art
              recursion_limit (1 # 2)%Q None one_category 0 _
              ltac:(vm_compute; reflexivity))
    as (c1 & w1 & k1 & Hl & Hw & Hk & H).
  assert (c1 = 0%nat) as -> by lia.
  vm_compute in Hw, Hk. injection Hw as <-. injection Hk as <-.
  exact (proj1 (H eq_refl)).
Defined.

(** *** The theorems at work *)

(** A new model raises on its first sample. *)
Lemma new_category_is_never_created_witness :
  (W new_model = []
   \/ any_positive
        (activations (1 # 2)%Q (TopoART.params new_model) (W new_model))
      = false)
  /\ is_raise (step_fit (1 # 2)%Q None new_model).1.
Proof.
  split; [left; reflexivity|].
  apply (proj1 (proj2 (@new_category_is_never_created Q Q unit Q art
                         check_dimensions recursion_limit))).
  left. reflexivity.
Defined.



(** The counters of the run of C7 are untouched. *)
Lemma second_resonance_increments_one_entry_witness :
  exists st',
    step_fit (1 # 2)%Q None one_category = (Ok 0, st')
    /\ _counter st' = _counter one_category.
Proof.
  eexists. split; [vm_compute; reflexivity|].
  exact (proj1 (proj1 (proj2 (@second_resonance_increments_one_entry
                                Q Q unit Q art recursion_limit))
                  (1 # 2)%Q None one_category 0 _
                  ltac:(vm_compute; reflexivity))).
Defined.





End runs.

End TopoARTFacts.

(** * Further properties of the code *)

Module Behaviour.

Import TopoART PyFacts TopoARTFacts.

(** ** The parameter dictionary *)

Section construction.

Import Construction.

Lemma assert_Ok b : assert_ b = Ok tt <-> b = true.
Proof. destruct b; simpl; split; congruence. Qed.

Lemma contains_true params key :
  contains params key = true <-> is_Some (params !! key).
Proof. unfold contains. by rewrite bool_decide_eq_true. Qed.

(** X1.  [validate_params], lines 27-40: the check accepts exactly the
    dictionaries that hold the four keys with [beta_lower <= beta] and
    [phi <= tau]; whatever it refuses, a missing key included, it refuses
    with an [AssertionError]. *)
Theorem validate_params_accepts params :
  (validate_params params = Ok tt
   <-> exists b bl ta ph,
         params !! "beta" = Some b /\ params !! "beta_lower" = Some bl
         /\ params !! "tau" = Some ta /\ params !! "phi" = Some ph
         /\ (bl <= b)%Q /\ (ph <= ta)%Q)
  /\ (validate_params params = Ok tt
      \/ validate_params params = Raise AssertionError).
Proof.
  unfold validate_params, contains, getitem.
  destruct (params !! "beta") as [b|] eqn:Hb; simpl;
    [|split; [split; [done|by intros (?&?&?&?&?&_)]|by right]].
  destruct (params !! "beta_lower") as [bl|] eqn:Hbl; simpl;
    [|split; [split; [done|by intros (?&?&?&?&?&?&_)]|by right]].
  destruct (params !! "tau") as [ta|] eqn:Hta; simpl;
    [|split; [split; [done|by intros (?&?&?&?&?&?&?&_)]|by right]].
  destruct (params !! "phi") as [ph|] eqn:Hph; simpl;
    [|split; [split; [done|by intros (?&?&?&?&?&?&?&?&_)]|by right]].
  destruct (Qle_bool bl b) eqn:H1; simpl.
  - destruct (Qle_bool ph ta) eqn:H2; simpl.
    + split; [|by left]. split; [|done]. intros _.
      exists b, bl, ta, ph. split_and!; try done; by apply Qle_bool_iff.
    + split; [|by right]. split; [done|].
      intros (?&?&?&?&?&?&?&?&?&H). simplify_eq.
      apply Qle_bool_iff in H. congruence.
  - split; [|by right]. split; [done|].
    intros (?&?&?&?&?&?&?&?&H&?). simplify_eq.
    apply Qle_bool_iff in H. congruence.
Qed.

(** X2.  [__init__], line 19, with [validate_params]: the dictionary the
    constructor builds passes the check exactly when the base module's
    parameters hold a [beta] that is at least [betta_lower] and
    [phi <= tau]; the entries the base module may itself have under
    [beta_lower], [tau] and [phi] play no part, and every other key reads
    as in the base module's dictionary. *)
Theorem merged_params_valid (base : gmap string Q) betta_lower tau phi :
  (validate_params (merged base betta_lower tau phi) = Ok tt
   <-> exists b, base !! "beta" = Some b /\ (betta_lower <= b)%Q /\ phi <= tau)
  /\ (forall key, key <> "beta_lower" -> key <> "tau" -> key <> "phi" ->
        merged base betta_lower tau phi !! key = base !! key).
Proof.
  assert (Hother : forall key,
            key <> "beta_lower" -> key <> "tau" -> key <> "phi" ->
            merged base betta_lower tau phi !! key = base !! key).
  { intros key ? ? ?. unfold merged. by rewrite !lookup_insert_ne. }
  split; [|done].
  rewrite (proj1 (validate_params_accepts _)).
  rewrite Hother by done.
  unfold merged.
  rewrite lookup_insert_eq.
  rewrite (lookup_insert_ne _ "phi" "tau") by done.
  rewrite lookup_insert_eq.
  rewrite (lookup_insert_ne _ "phi" "beta_lower") by done.
  rewrite (lookup_insert_ne _ "tau" "beta_lower") by done.
  rewrite lookup_insert_eq.
  split.
  - intros (b&bl&ta&ph&?&?&?&?&?&H). simplify_eq.
    exists b. split_and!; try done. by rewrite ?Zle_Qle in *.
  - intros (b&?&?&?). exists b, betta_lower, (inject_Z tau), (inject_Z phi).
    split_and!; try done. by rewrite ?Zle_Qle in *.
Qed.

(** The check on the record of the four parameters agrees with the check
    on its dictionary. *)
Lemma validate_params_of_record {extra} (p : BaseART.Params extra) :
  validate_params (of_record p) = Ok tt
  <-> @TopoART.validate_params extra p = true.
Proof.
  rewrite (proj1 (validate_params_accepts _)).
  unfold of_record, merged, TopoART.validate_params.
  rewrite lookup_insert_eq.
  repeat (rewrite lookup_insert_ne by done; try rewrite lookup_insert_eq).
  rewrite andb_true_iff, bool_decide_eq_true, Qle_bool_iff.
  split.
  - intros (b&bl&ta&ph&?&?&?&?&?&H). simplify_eq.
    split; [done|]. by rewrite ?Zle_Qle in *.
  - intros [? ?]. eexists _, _, _, _. split_and!; try done. by rewrite ?Zle_Qle in *.
Qed.

End construction.

(** ** The methods *)

Ltac unfold_m :=
  unfold TopoART.fit, fit_begin, step_prune, prune, prune_sample, choices,
    update, set_weight, add_weight, TopoART.new_weight, mbind, ret, raise, get,
    modify, lift in *.

Ltac cases_m :=
  repeat (simplify_eq /=;
          match goal with
          | H : context [match ?r with Ok _ => _ | Raise _ => _ end] |- _ =>
              destruct r eqn:?
          | H : context [let (_, _) := ?r in _] |- _ => destruct r eqn:?
          | H : context [if ?b then _ else _] |- _ => destruct b eqn:?
          | H : context [match ?o with Some _ => _ | None => _ end] |- _ =>
              destruct o eqn:?
          end);
  simplify_eq /=.

Section methods.

Context {sample weight cache extra : Type}.
Context {base_module : BaseART.module sample weight cache extra}.
Variable check_dimensions : list sample -> bool.
Variable recursion_limit : nat.

Abbreviation state := (TopoART.state sample weight cache extra).
Abbreviation step_fit := (TopoART.step_fit recursion_limit).
Abbreviation fit_samples := (TopoART.fit_samples recursion_limit).
Abbreviation fit_epochs := (TopoART.fit_epochs recursion_limit).
Abbreviation fit := (TopoART.fit check_dimensions recursion_limit).

(** *** When [fit] returns *)

Lemma fit_epochs_nil n mrf (st : state) : fit_epochs n [] mrf st = (Ok tt, st).
Proof. induction n as [|n IH]; [done|]. simpl. unfold mbind, ret. exact IH. Qed.

(** When [fit] returns, it has only cleared the weights and the labels. *)
Lemma fit_Ok X mrf n (st st' : state) :
  fit X mrf n st = (Ok tt, st') ->
  BaseART.validate_data X = true /\ check_dimensions X = true
  /\ (X = [] \/ n = 0%nat)
  /\ st' = set_labels (set_W st []) (replicate (length X) 0).
Proof.
  intros H. destruct X as [|x X'].
  - unfold_m. cases_m. rewrite fit_epochs_nil in H. simplify_eq.
    split_and!; auto.
  - destruct n as [|n'].
    + unfold_m. cases_m. unfold ret in H. simplify_eq. split_and!; auto.
    + pose proof (fit_raises check_dimensions recursion_limit x X' mrf n' st)
        as Hr.
      by rewrite H in Hr.
Qed.

(** X3.  [fit], lines 235-257: [fit] returns exactly when the data pass
    the two checks and there is nothing to loop over, an empty data set or
    [max_iter = 0]; the model it then leaves has no weights, one label 0 for
    each sample, and everything else as it was. *)
Theorem fit_returns_iff_nothing_to_do X mrf n (st : state) :
  ((exists st', fit X mrf n st = (Ok tt, st'))
   <-> BaseART.validate_data X = true /\ check_dimensions X = true
       /\ (X = [] \/ n = 0%nat))
  /\ (forall st', fit X mrf n st = (Ok tt, st') ->
        st' = set_labels (set_W st []) (replicate (length X) 0)).
Proof.
  split.
  - split.
    + intros [st' H]. destruct (fit_Ok _ _ _ _ _ H) as (?&?&?&_). auto.
    + intros (Hv & Hc & Hn). eexists. unfold_m. rewrite Hv, Hc.
      destruct Hn as [-> | ->]; [apply fit_epochs_nil|done].
  - intros st' H. by destruct (fit_Ok _ _ _ _ _ H) as (?&?&?&?).
Qed.

(** X4.  [__init__], lines 22-24, [step_prune], line 167, and [fit]:
    [sum] cannot iterate over the 0-dimensional counter a newly constructed
    wrapper has, and [fit] does not replace it, so the first [step_prune] of
    [fit] raises a [TypeError]: on data that pass the checks and with a
    sample and an iteration to run, that is how [fit] ends. *)
Theorem fit_of_new_wrapper_raises_TypeError x X mrf n (st : state) a :
  _counter st = Vec0 a ->
  BaseART.validate_data (x :: X) = true ->
  check_dimensions (x :: X) = true ->
  (forall X', step_prune X' st = (Raise TypeError, st))
  /\ fit (x :: X) mrf (S n) st
     = (Raise TypeError,
        set_labels (set_W st []) (replicate (length (x :: X)) 0)).
Proof.
  intros Hc Hv Hd. split.
  - intros X'. unfold_m. by rewrite Hc.
  - unfold_m. rewrite Hv, Hd. simpl. unfold_m. simpl. by rewrite Hc.
Qed.

(** *** The loop of [step_fit] *)

(** X5.  [step_fit], lines 197-224: the [while] loop ends.  Its body runs
    at most once for each positive activation and once more after the first
    resonance; the model bounds the number of runs, and with any two bounds
    above that number the loop does the same and never stops at the
    bound. *)
Theorem resonance_search_bound_is_immaterial (x : sample) mrf T_cache :
  forall fuel1 fuel2 T rc (st : state),
  (count_positive T + (if bool_decide (rc < 0)%Z then 1 else 0) < fuel1)%nat ->
  (count_positive T + (if bool_decide (rc < 0)%Z then 1 else 0) < fuel2)%nat ->
  resonance_search fuel1 x mrf T_cache T rc st
  = resonance_search fuel2 x mrf T_cache T rc st
  /\ (resonance_search fuel1 x mrf T_cache T rc st).1 <> Raise LoopFuel.
Proof.
  intros fuel1 fuel2 T rc st H1 H2.
  split; [|by apply resonance_search_within_fuel].
  revert fuel2 T rc st H1 H2.
  induction fuel1 as [|fuel1 IH]; intros fuel2 T rc st H1 H2; [lia|].
  destruct fuel2 as [|fuel2]; [lia|]. simpl.
  destruct (any_positive T) eqn:Hany; [|done].
  apply np_argmax_positive in Hany as (t & Ht & Hpos).
  unfold mbind, get, lift, item.
  destruct (W st !! np_argmax T) as [w|]; [|done].
  destruct (T_cache !! np_argmax T) as [k|]; [|done].
  destruct (_ && _).
  - destruct (update _ _ _ _ st) as [[w'|e] st1]; [|done].
    destruct (set_weight _ _ _) as [[[]|e] st2]; [|done].
    case_bool_decide; [|done].
    apply IH; rewrite bool_decide_false by lia; lia.
  - pose proof (count_positive_masked T _ t Ht Hpos).
    apply IH; lia.
Qed.

(** X6.  [step_fit], lines 185-232: a call that returns names a category
    the model already had, and leaves the model with as many categories as
    before: all weights but those of at most two categories are as they
    were, and so are the parameters, the counters, the mask and the
    labels. *)
Theorem step_fit_returns_an_existing_category (x : sample) mrf
    (st st' : state) label :
  step_fit x mrf st = (Ok label, st') ->
  exists c1 c2 : nat,
    label = Z.of_nat c1
    /\ (c1 < length (W st))%nat /\ (c2 < length (W st))%nat
    /\ length (W st') = length (W st)
    /\ (forall j, j <> c1 -> j <> c2 -> W st' !! j = W st !! j)
    /\ params st' = params st /\ _counter st' = _counter st
    /\ _permanent_mask st' = _permanent_mask st /\ labels_ st' = labels_ st.
Proof.
  intros H.
  destruct (step_fit_frame _ _ _ _ _ _ H) as (Hp & Hc & Hm & Hl & Hlen).
  apply step_fit_Ok in H
    as (T1 & w1 & k1 & r & _ & _ & -> & Hw1 & _ & _ & T2 & _ & H).
  pose proof (lookup_lt_Some _ _ _ Hw1) as Hlt.
  destruct H as [(_ & _ & ->)|(w2 & k2 & a & _ & _ & Hw2 & _ & _ & _ & ->)].
  - exists (np_argmax T1), (np_argmax T1). split_and!; try done.
    intros j Hj _. simpl. by rewrite list_lookup_insert_ne.
  - apply lookup_lt_Some in Hw2. simpl in Hw2. rewrite length_insert in Hw2.
    exists (np_argmax T1), (np_argmax T2). split_and!; try done.
    intros j Hj1 Hj2. simpl. by rewrite !list_lookup_insert_ne.
Qed.

(** The loop only overwrites entries of [T] with -1, and only those of
    categories that did not pass the test of line 206. *)
Lemma scan_masks (x : sample) mrf T_cache (st : state) T T1 :
  scan x mrf T_cache st T T1 ->
  forall j,
    T1 !! j = T !! j
    \/ (T1 !! j = Some (-1)%Q
        /\ exists w k, W st !! j = Some w /\ T_cache !! j = Some k
                       /\ passes x mrf (params st) j w k = false).
Proof.
  induction 1 as [T|T T' w k Hany Hw Hk Hp _ IH]; intros j; [by left|].
  destruct (IH j) as [Heq|Hrej]; [|by right].
  destruct (decide (j = np_argmax T)) as [->|Hne].
  - right. apply np_argmax_positive in Hany as (t & Ht & _).
    split; [|by eauto].
    rewrite Heq. apply list_lookup_insert_eq. by eapply lookup_lt_Some.
  - left. by rewrite Heq, list_lookup_insert_ne.
Qed.

Lemma argmax_from_first T : forall i best top,
  (argmax_from i best top T = best /\ Forall (fun t => (t <= top)%Q) T)
  \/ (exists k t, argmax_from i best top T = (i + k)%nat
                 /\ T !! k = Some t
                 /\ (top < t)%Q
                 /\ forall k' t', (k' < k)%nat -> T !! k' = Some t' ->
                                  (t' < t)%Q).
Proof.
  induction T as [|t0 T IH]; intros i best top; simpl.
  { left. by split. }
  destruct (Qle_bool t0 top) eqn:E.
  - apply Qle_bool_iff in E.
    destruct (IH (S i) best top) as [[-> HT]|(k & t & -> & Hk & Hlt & HT)].
    + left. split; [done|]. by constructor.
    + right. exists (S k), t. split_and!; [lia|done..|].
      intros [|k'] t' Hk' Ht'; simpl in Ht'.
      * simplify_eq. by eapply Qle_lt_trans.
      * eapply HT; [|done]. lia.
  - assert (top < t0)%Q as Hlt.
    { apply Qnot_le_lt. intros H. apply Qle_bool_iff in H. congruence. }
    destruct (IH (S i) i t0) as [[-> HT]|(k & t & -> & Hk & Hlt' & HT)].
    + right. exists 0%nat, t0. split_and!; [lia|done..|]. intros; lia.
    + right. exists (S k), t. split_and!; [lia|done| |].
      * by eapply Qlt_trans.
      * intros [|k'] t' Hk' Ht'; simpl in Ht'.
        -- by simplify_eq.
        -- eapply HT; [|done]. lia.
Qed.

(** [np.argmax] returns the first position of the largest value: what
    comes before it is smaller. *)
Lemma np_argmax_first T j t t' :
  T !! np_argmax T = Some t -> (j < np_argmax T)%nat -> T !! j = Some t' ->
  (t' < t)%Q.
Proof.
  destruct T as [|t0 T]; [done|]. simpl.
  destruct (argmax_from_first T 1 0 t0) as [[-> _]|(k & t1 & -> & Hk & Hlt & HT)].
  - lia.
  - simpl. rewrite Hk. intros [= <-] Hj Ht'.
    destruct j as [|j]; simpl in Ht'.
    + by simplify_eq.
    + eapply HT; [|done]. lia.
Qed.

Lemma positive_gt t : positive t = true -> (0 < t)%Q.
Proof.
  unfold positive. intros H. apply negb_true_iff in H.
  apply Qnot_le_lt. intros Hle. apply Qle_bool_iff in Hle. congruence.
Qed.

(** X7.  [step_fit], lines 197-224: the label a call returns is that of a
    category with a positive activation, and the best of those that pass
    the test of line 206: every category with a larger activation, or with
    the same activation and a smaller index, did not pass it. *)
Theorem step_fit_returns_the_best_passing_category (x : sample) mrf
    (st st' : state) label :
  step_fit x mrf st = (Ok label, st') ->
  let T := activations x (params st) (W st) in
  let T_cache := caches x (params st) (W st) in
  exists c1 t,
    label = Z.of_nat c1
    /\ T !! c1 = Some t
    /\ (0 < t)%Q
    /\ forall j t',
         T !! j = Some t' ->
         (t < t')%Q \/ ((t <= t')%Q /\ (j < c1)%nat) ->
         exists w k, W st !! j = Some w /\ T_cache !! j = Some k
                     /\ passes x mrf (params st) j w k = false.
Proof.
  intros H T T_cache. subst T T_cache.
  apply step_fit_Ok in H
    as (T1 & w1 & k1 & r & Hscan & Hany & -> & _ & _ & _ & _).
  pose proof (scan_masks _ _ _ _ _ _ Hscan) as Hmask.
  destruct (np_argmax_positive _ Hany) as (t & Ht & Hpos).
  assert (activations x (params st) (W st) !! np_argmax T1 = Some t) as HtT.
  { destruct (Hmask (np_argmax T1)) as [<-|[Hm _]]; [done|].
    rewrite Ht in Hm. by simplify_eq. }
  exists (np_argmax T1), t. split_and!; [done|done|by apply positive_gt|].
  intros j t' Hj Hbetter.
  destruct (Hmask j) as [Heq|[_ Hrej]]; [|done].
  exfalso. rewrite Hj in Heq.
  destruct Hbetter as [Hlt|[Hle Hlt]].
  - destruct (np_argmax_spec T1) as (t1 & Ht1 & Hmax).
    { intros ->. done. }
    rewrite Ht in Ht1. simplify_eq.
    rewrite Forall_forall in Hmax.
    assert (t' <= t1)%Q as Hle.
    { apply Hmax. by eapply list_elem_of_lookup_2. }
    by apply Qle_not_lt in Hle.
  - pose proof (np_argmax_first _ _ _ _ Ht Hlt Heq) as Hlt'.
    by apply Qle_not_lt in Hle.
Qed.

(** *** What [update] raises *)

Lemma np_incr2_outcome m i j :
  (is_Some (mat_get m i j) /\ exists m', np_incr2 m i j = Ok m')
  \/ (mat_get m i j = None /\ np_incr2 m i j = Raise IndexError).
Proof.
  destruct m as [a|rows]; simpl; [by right|].
  destruct (rows !! i) as [row|]; [|by right].
  destruct (row !! j); [left; eauto|by right].
Qed.

(** X8.  [update], lines 121-123: given a cache dictionary, the code of
    the wrapper's [update] raises in two cases only, both with a resonant
    category recorded in the cache: a [KeyError] when the key [current_c]
    is missing, an [IndexError] when the adjacency has no entry for the
    pair.  In every other case it hands on what the base module's [update]
    returns. *)
Theorem update_raises_only_on_the_adjacency (i : sample) w p c (st : state) :
  let r := default (-1) (BaseART.resonant_c c) in
  (forall e st',
     update i w p c st = (Raise e, st')
     <-> st' = st /\ 0 <= r
         /\ match BaseART.current_c c with
            | None => e = KeyError
            | Some cur =>
                mat_get (adjacency st) (Z.to_nat r) cur = None
                /\ e = IndexError
            end)
  /\ (r < 0 \/ (exists cur, BaseART.current_c c = Some cur
                  /\ is_Some (mat_get (adjacency st) (Z.to_nat r) cur)) ->
      exists st', update i w p c st = (Ok (BaseART.update i w p c), st')).
Proof.
  intros r. unfold update, mbind, get, lift, modify, ret, raise. fold r.
  case_bool_decide as Hr.
  - destruct (BaseART.current_c c) as [cur|].
    + destruct (np_incr2_outcome (adjacency st) (Z.to_nat r) cur)
        as [[Hs [m' ->]]|[Hn ->]].
      * split.
        -- intros e st'. split; [done|]. intros (_ & _ & Hn & _).
           rewrite Hn in Hs. by destruct Hs.
        -- intros _. by eexists.
      * split.
        -- intros e st'.
           split; [by intros [= <- <-]|by intros (-> & _ & _ & ->)].
        -- intros [?|(cur' & [= <-] & Hs)]; [lia|].
           rewrite Hn in Hs. by destruct Hs.
    + split.
      * intros e st'. split; [by intros [= <- <-]|by intros (-> & _ & ->)].
      * intros [?|(cur' & ? & _)]; [lia|done].
  - split.
    + intros e st'. split; [done|]. intros (_ & ? & _). lia.
    + intros _. by eexists.
Qed.

(** *** The labels and counters a prune pass leaves *)

(** The index of a flagged position among the flagged ones is where
    [np.where] lists it. *)
Lemma position_where_from l : forall i j,
  l !! j = Some true ->
  position (where_from i l) (Z.of_nat (i + j)) = Some (rank l j).
Proof.
  unfold position.
  induction l as [|b l IH]; intros i j Hj; [done|].
  destruct j as [|j]; simpl in Hj.
  - simplify_eq. simpl. rewrite decide_True by (f_equal; lia). done.
  - rewrite rank_cons. specialize (IH (S i) j Hj).
    replace (S i + j)%nat with (i + S j)%nat in IH by lia.
    destruct b; simpl.
    + rewrite decide_False by lia.
      destruct (list_find _ (where_from (S i) l)) as [[n p]|]; by simplify_eq /=.
    + done.
Qed.

Lemma position_Some perm_labels label n :
  position perm_labels label = Some n ->
  exists p, perm_labels !! n = Some p /\ label = Z.of_nat p.
Proof.
  unfold position. intros H.
  destruct (list_find _ perm_labels) as [[n' p]|] eqn:E; simplify_eq /=.
  apply list_find_Some in E as (Hn & Hp & _). by exists p.
Qed.

Lemma rank_lt l : forall j1 j2,
  l !! j1 = Some true -> (j1 < j2)%nat -> (rank l j1 < rank l j2)%nat.
Proof.
  induction l as [|b l IH]; intros j1 j2 H1 Hlt; [done|].
  destruct j2 as [|j2]; [lia|]. rewrite rank_cons.
  destruct j1 as [|j1]; simpl in H1.
  - simplify_eq. unfold rank at 1. simpl. change (count_true []) with 0%nat. lia.
  - rewrite rank_cons. apply (IH j1 j2) in H1; lia.
Qed.

Lemma length_select_flagged {A} (l : list bool) : forall ws : list A,
  (forall i, l !! i = Some true -> (i < length ws)%nat) ->
  length (select ws l) = count_true l.
Proof.
  induction l as [|b l IH]; intros ws Hfl; [by destruct ws|].
  rewrite count_true_cons. destruct ws as [|w ws].
  - destruct b; [specialize (Hfl 0%nat eq_refl); simpl in Hfl; lia|].
    simpl. rewrite <-(IH []); [done|].
    intros i Hi. specialize (Hfl (S i) Hi). simpl in Hfl. lia.
  - assert (length (select ws l) = count_true l) as E.
    { apply IH. intros i Hi. specialize (Hfl (S i) Hi). simpl in Hfl. lia. }
    destruct b; simpl; by rewrite E.
Qed.

(** A sample whose category survives the pass is given the new index of
    that category. *)
Lemma prune_label_of_survivor (X : list sample) (st st' : state) i x j :
  prune X st = (Ok tt, st') ->
  X !! i = Some x ->
  labels_ st !! i = Some (Z.of_nat j) ->
  permanent st' j ->
  labels_ st' !! i = Some (Z.of_nat (new_index st' j)).
Proof.
  intros H Hx Hl (l' & Hm & Hj).
  apply prune_relabels in H as (perm & cs & cs' & Hperm & _ & _ & _ & Hlab & _).
  destruct (Hlab i x Hx) as (l & Hl' & ->). rewrite Hl in Hl'. simplify_eq.
  rewrite Hm in Hperm. simpl in Hperm. simplify_eq.
  unfold relabel, new_index. rewrite Hm.
  pose proof (position_where_from l' 0 j Hj) as Hpos.
  change (0 + j)%nat with j in Hpos. by rewrite Hpos.
Qed.

(** X9.  [prune], lines 146-158: the labels follow their categories.  A
    sample of the data set whose category survives the pass is afterwards
    labelled with the new index of that category, and under that label the
    model holds the weight it held under the old one. *)
Theorem prune_labels_follow_their_categories (X : list sample)
    (st st' : state) i x j :
  prune X st = (Ok tt, st') ->
  X !! i = Some x ->
  labels_ st !! i = Some (Z.of_nat j) ->
  permanent st' j ->
  exists j', labels_ st' !! i = Some (Z.of_nat j')
    /\ j' = new_index st' j
    /\ (j' <= j)%nat
    /\ forall w, W st !! j = Some w -> W st' !! j' = Some w.
Proof.
  intros H Hx Hl Hperm. exists (new_index st' j).
  split_and!; [by eapply prune_label_of_survivor|done| |].
  - destruct Hperm as (l' & Hm & _). unfold new_index. rewrite Hm.
    apply rank_le.
  - intros w Hw. by destruct (prune_keeps_flagged X st st' j w H Hperm Hw).
Qed.

(** X10.  [prune], lines 146-158: the pass never merges two surviving
    categories and keeps their order.  Two samples of the data set whose
    categories both survive, the first with the smaller index, have labels
    in that order afterwards too. *)
Theorem prune_keeps_survivors_apart (X : list sample) (st st' : state)
    i1 x1 j1 i2 x2 j2 :
  prune X st = (Ok tt, st') ->
  X !! i1 = Some x1 -> X !! i2 = Some x2 ->
  labels_ st !! i1 = Some (Z.of_nat j1) ->
  labels_ st !! i2 = Some (Z.of_nat j2) ->
  permanent st' j1 -> permanent st' j2 ->
  (j1 < j2)%nat ->
  exists v1 v2, labels_ st' !! i1 = Some v1 /\ labels_ st' !! i2 = Some v2
                /\ 0 <= v1 < v2.
Proof.
  intros H Hx1 Hx2 Hl1 Hl2 Hp1 Hp2 Hlt.
  exists (Z.of_nat (new_index st' j1)), (Z.of_nat (new_index st' j2)).
  split_and!; [by eapply prune_label_of_survivor..|lia|].
  destruct Hp1 as (l' & Hm & Hj1). unfold new_index. rewrite Hm.
  pose proof (rank_lt l' j1 j2 Hj1 Hlt). lia.
Qed.

Lemma reassignments_le perm_labels p ws (X : list sample) labels n :
  (reassignments perm_labels p ws X labels n <= length X)%nat.
Proof.
  unfold reassignments. etrans; [apply length_filter|].
  rewrite length_zip_with. lia.
Qed.

(** X11.  [prune], lines 148 and 164: the counter of a surviving category
    moves with it to its new index and is incremented once for each sample
    the pass re-assigns to the category, at most [len(X)] times, in 64-bit
    arithmetic: short of an overflow it grows by that number and does not
    decrease. *)
Theorem prune_counter_of_survivor (X : list sample) (st st' : state) cs j c :
  prune X st = (Ok tt, st') ->
  _counter st = Vec1 cs -> cs !! j = Some c ->
  permanent st' j ->
  exists perm_labels cs' (k : nat),
    np_where (_permanent_mask st') = Ok perm_labels
    /\ _counter st' = Vec1 cs'
    /\ k = reassignments perm_labels (params st) (W st') X (labels_ st)
             (new_index st' j)
    /\ (k <= length X)%nat
    /\ cs' !! new_index st' j = Some (incr64 k c)
    /\ (int64 c -> c + Z.of_nat k < 2 ^ 63 ->
        incr64 k c = c + Z.of_nat k /\ c <= incr64 k c).
Proof.
  intros H Hcs Hc (l' & Hm & Hj).
  apply prune_relabels in H
    as (perm & cs0 & cs' & Hperm & Htake & Hcs' & _ & _ & Hcount).
  exists perm, cs', (reassignments perm (params st) (W st') X (labels_ st)
                       (new_index st' j)).
  split_and!; [done|done|done|apply reassignments_le| |].
  - rewrite Hcount. rewrite Hm in Hperm. simpl in Hperm. simplify_eq.
    rewrite Hcs in Htake.
    apply np_take_Ok in Htake as (l0 & r & [= <-] & [= <-] & _ & Hr).
    pose proof (position_where_from l' 0 j Hj) as Hpos.
    change (0 + j)%nat with j in Hpos.
    apply position_Some in Hpos as (p & Hp & Hpj).
    apply Nat2Z.inj in Hpj. subst p.
    destruct (Hr _ _ Hp) as [_ Hk].
    assert (new_index st' j = rank l' j) as ->.
    { unfold new_index. by rewrite Hm. }
    by rewrite Hk, Hc.
  - intros Hi Hk. rewrite incr64_small by done. lia.
Qed.

Lemma label_map_Some perm_labels labels l n :
  label_map perm_labels labels !! l = Some n ->
  position perm_labels l = Some n /\ (n < length perm_labels)%nat.
Proof.
  unfold label_map. intros H. apply elem_of_list_to_map_2 in H.
  apply omap_keys_elem in H as [_ H]. split; [done|].
  apply position_Some in H as (p & Hp & _). by eapply lookup_lt_Some.
Qed.

Lemma np_argmax_lt T : T <> [] -> (np_argmax T < length T)%nat.
Proof.
  intros HT. destruct (np_argmax_spec T HT) as (t & Ht & _).
  by eapply lookup_lt_Some.
Qed.

(** The loop of a prune pass writes indices of weights only, one for each
    sample, and leaves what it wrote as it is. *)
Lemma prune_samples_range lm (X : list sample) n :
  (forall l j, lm !! l = Some j -> (j < n)%nat) ->
  forall i (st st' : state),
  prune_samples lm i X st = (Ok tt, st') ->
  length (W st) = n ->
  (forall k x, X !! k = Some x ->
     exists v : nat, labels_ st' !! (i + k)%nat = Some (Z.of_nat v)
                     /\ (v < n)%nat)
  /\ (forall k, (k < i)%nat -> labels_ st' !! k = labels_ st !! k).
Proof.
  intros Hlm. induction X as [|x X IH]; intros i st st' H Hn; simpl in H.
  { unfold ret in H. simplify_eq. split; [by intros k x ?|done]. }
  unfold mbind in H.
  destruct (prune_sample lm i x st) as [[[]|] st1] eqn:E1; [|done].
  destruct (prune_sample_frame _ _ _ _ _ E1) as (_ & HW & _).
  assert (exists v : nat,
            (v < n)%nat /\ is_Some (labels_ st !! i)
            /\ labels_ st1 = <[i := Z.of_nat v]> (labels_ st))
    as (v & Hv & Hi & Hl1).
  { apply prune_sample_Ok in E1 as (l & Hl & E1).
    destruct (lm !! l) as [l'|] eqn:El.
    - exists l'. subst st1. split_and!; [by eapply Hlm|by eexists|done].
    - destruct E1 as (cs & a & Hne & _ & _ & ->).
      exists (np_argmax (activations x (params st) (W st))).
      split_and!; [|by eexists|done].
      rewrite <-Hn. unfold activations.
      rewrite <-(length_fmap (fun w => (category_choice x w (params st)).1)).
      apply np_argmax_lt. by destruct (W st). }
  destruct (IH (S i) st1 st' H) as [Hr Hk]; [by rewrite HW|].
  split.
  - intros [|k] x' Hx'; simpl in Hx'.
    + exists v. split; [|done]. rewrite Nat.add_0_r, Hk by lia.
      rewrite Hl1. apply list_lookup_insert_eq. by apply lookup_lt_is_Some.
    + destruct (Hr k x' Hx') as (v' & Hv' & ?). exists v'.
      split; [|done]. by replace (i + S k)%nat with (S i + k)%nat by lia.
  - intros k Hlt. rewrite Hk by lia. rewrite Hl1.
    apply list_lookup_insert_ne. lia.
Qed.

(** With as many counters as weights before a pass, there are as many
    after it, and the labels of the data set are indices of weights. *)
Lemma prune_keeps_counters_and_labels (X : list sample) (st st' : state) :
  vec_len (_counter st) = Some (length (W st)) ->
  prune X st = (Ok tt, st') ->
  vec_len (_counter st') = Some (length (W st'))
  /\ forall i x, X !! i = Some x ->
       exists v : nat, labels_ st' !! i = Some (Z.of_nat v)
                       /\ (v < length (W st'))%nat.
Proof.
  intros Hlen H.
  destruct (prune_leaves_mask_and_adjacency _ _ _ H)
    as (l0' & l1 & cs0 & _ & Hm1 & _ & _ & _ & _ & _ & Hc1 & _).
  apply prune_Ok in H as (m & perm & w & c & _ & Hperm & Hw & Hc & H).
  destruct m as [|l']; [done|]. simpl in Hperm, Hw. simplify_eq.
  apply np_take_Ok in Hc as (l0 & r & Hl0 & -> & _ & Hr).
  rewrite Hl0 in Hlen. simpl in Hlen.
  assert (length (select (W st) l') = length (where_from 0 l')) as Hsel.
  { rewrite length_where_from. apply length_select_flagged.
    intros i Hi.
    assert (i ∈ where_from 0 l') as Hin.
    { apply elem_of_where_from. by exists i. }
    apply list_elem_of_lookup in Hin as [k Hk].
    destruct (Hr _ _ Hk) as [Hs _]. apply lookup_lt_is_Some in Hs.
    injection Hlen as Hlen. lia. }
  destruct (prune_samples_frame _ _ _ _ _ H) as (_ & HW & _ & Hm & _).
  simpl in HW, Hm. rewrite HW. split.
  - rewrite Hm1 in Hm. simplify_eq.
    by rewrite Hc1, Hsel, length_where_from.
  - eapply (prune_samples_range _ X (length (select (W st) l'))) in H
      as [Hr' _]; [|by intros l j [_ ?]%label_map_Some; rewrite Hsel|done].
    intros i x Hx. by apply (Hr' i x).
Qed.

(** X12.  [prune], lines 146-164: in a model with as many counters as
    weights, a pass that completes leaves every sample of the data set a
    label that is the index of a weight of the pruned model. *)
Theorem prune_labels_are_categories (X : list sample) (st st' : state) :
  vec_len (_counter st) = Some (length (W st)) ->
  prune X st = (Ok tt, st') ->
  forall i x, X !! i = Some x ->
    exists v : nat, labels_ st' !! i = Some (Z.of_nat v)
                    /\ (v < length (W st'))%nat.
Proof.
  intros Hlen H. by destruct (prune_keeps_counters_and_labels X st st' Hlen H).
Qed.

(** A prune pass whose array operations succeed comes down to its loop
    over the data set. *)
Lemma prune_run (X : list sample) (st : state) m perm_labels w c :
  np_iadd (_permanent_mask st)
    (np_ge (_counter st) (BaseART.phi (params st))) = Ok m ->
  np_where m = Ok perm_labels ->
  zip_filter (W st) m = Ok w ->
  np_take (_counter st) perm_labels = Ok c ->
  prune X st
  = prune_samples (label_map perm_labels (labels_ st)) 0 X
      (mkState (params st) w (adjacency st) c m (labels_ st)
         (trace st ++ [EvPrune X])).
Proof.
  intros H1 H2 H3 H4. unfold prune, mbind, modify, get, lift. simpl.
  rewrite H1. simpl. rewrite H2, H3. simpl. by rewrite H4.
Qed.

(** X13.  [prune], lines 145-164: a pass in which no category survives
    does not return: it raises when the data set has a sample.  When the
    mask and the counters have the same length and there is a label, it is
    the [ValueError] of the unpacking at line 160 that is raised, and the
    model is left with no weight and no counter. *)
Theorem prune_without_survivor_raises (x : sample) X (st : state) l cs :
  _permanent_mask st = Vec1 l -> Forall (fun b => b = false) l ->
  _counter st = Vec1 cs ->
  Forall (fun c => c < BaseART.phi (params st)) cs ->
  is_raise (prune (x :: X) st).1
  /\ (length cs = length l -> labels_ st <> [] ->
      exists st', prune (x :: X) st = (Raise ValueError, st')
                  /\ W st' = [] /\ _counter st' = Vec1 []).
Proof.
  intros Hm Hl Hc Hcs.
  set (k := (fun a => bool_decide (BaseART.phi (params st) <= a)) <$> cs).
  assert (Forall (fun b => b = false) k) as Hk.
  { subst k. apply Forall_fmap. eapply Forall_impl; [done|].
    intros c Hlt. simpl in *. apply bool_decide_eq_false. lia. }
  assert (forall m, np_iadd (Vec1 l) (Vec1 k) = Ok m ->
            exists l', m = Vec1 l' /\ Forall (fun b => b = false) l') as Hadd.
  { intros m. assert (forall b, b = false ->
              Forall (fun b => b = false) ((fun a => a || b) <$> l)) as Hb.
    { intros b ->. apply Forall_fmap. eapply Forall_impl; [done|].
      by intros a ->. }
    destruct k as [|b [|b' k']]; simpl.
    - case_decide; [|done]. intros [= <-]. eexists. split; [done|].
      by destruct l.
    - intros [= <-]. eexists. split; [done|]. apply Hb. by inversion Hk.
    - case_decide; [|done]. intros [= <-]. eexists. split; [done|].
      clear -Hl Hk. revert Hk. generalize (b :: b' :: k').
      induction Hl as [|a l -> _ IH]; intros [|b0 k0] Hk; simpl; try done.
      inversion Hk; subst. constructor; [done|]. by apply IH. }
  assert (forall l' i, Forall (fun b => b = false) l' -> where_from i l' = [])
    as Hwhere.
  { induction l' as [|b l' IH]; intros i Hl'; [done|].
    inversion Hl'; subst. simpl. by apply IH. }
  assert (forall l' (ws : list weight),
            Forall (fun b => b = false) l' -> select ws l' = []) as Hselect.
  { induction l' as [|b l' IH]; intros ws Hl'; [by destruct ws|].
    inversion Hl'; subst. destruct ws; [done|]. simpl. by apply IH. }
  assert (forall labels l0, label_map [] labels !! l0 = None) as Hlm.
  { intros labels l0. destruct (label_map [] labels !! l0) eqn:E; [|done].
    apply label_map_Some in E as [_ ?]. simpl in *. lia. }
  split.
  - destruct (prune (x :: X) st) as [[[]|] st'] eqn:H; [|done].
    exfalso. apply prune_Ok in H as (m & perm & w & c & Hi & Hperm & Hw & _ & H).
    rewrite Hm, Hc in Hi. simpl in Hi. fold k in Hi.
    apply Hadd in Hi as (l' & -> & Hl'). simpl in Hperm, Hw. simplify_eq.
    rewrite Hwhere, Hselect in H by done.
    simpl in H. unfold mbind at 1 in H.
    destruct (prune_sample _ _ _ _) as [[[]|] st1] eqn:E1; [|done].
    apply prune_sample_Ok in E1 as (l0 & _ & E1). rewrite Hlm in E1.
    by destruct E1 as (? & ? & ? & _).
  - intros Hlen Hne.
    assert (exists l', np_iadd (Vec1 l) (Vec1 k) = Ok (Vec1 l')
                       /\ Forall (fun b => b = false) l') as (l' & Hi & Hl').
    { assert (length k = length l) as Hlk.
      { subst k. by rewrite length_fmap. }
      destruct (np_iadd (Vec1 l) (Vec1 k)) as [m|] eqn:E.
      - destruct (Hadd m eq_refl) as (l' & -> & ?). by exists l'.
      - exfalso. clear Hadd Hk. revert E. simpl.
        destruct k as [|b [|b' k']]; [|done|]; by rewrite decide_True. }
    rewrite (prune_run _ st (Vec1 l') [] [] (Vec1 [])).
    + simpl. unfold prune_sample, mbind, get, lift, item, choices, raise. simpl.
      destruct (labels_ st) as [|l0 ls] eqn:El; [done|]. simpl.
      rewrite Hlm. by eexists.
    + by rewrite Hm, Hc.
    + simpl. by rewrite Hwhere.
    + simpl. by rewrite Hselect.
    + by rewrite Hc.
Qed.

(** *** A model whose categories are all permanent *)

Lemma all_true_zip_orb l : forall k,
  Forall (fun b => b = true) l -> length k = length l -> zip_with orb l k = l.
Proof.
  induction l as [|a l IH]; intros [|b k] Hl Hlen; simplify_eq /=; [done|].
  inversion Hl; subst. by rewrite IH.
Qed.

Lemma all_true_fmap_orb l b :
  Forall (fun b => b = true) l -> (fun a => a || b) <$> l = l.
Proof. induction 1 as [|a l -> _ IH]; [done|]. simpl. by f_equal. Qed.

Lemma all_true_select {A} (ws : list A) : forall l,
  Forall (fun b => b = true) l -> length l = length ws -> select ws l = ws.
Proof.
  induction ws as [|w ws IH]; intros [|b l] Hl Hlen; simplify_eq /=; [done|].
  inversion Hl; subst. by rewrite IH.
Qed.

Lemma all_true_take_list {A} (l : list bool) : forall (pre cs : list A),
  Forall (fun b => b = true) l -> length l = length cs ->
  take_list (pre ++ cs) (where_from (length pre) l) = Ok cs.
Proof.
  induction l as [|b l IH]; intros pre [|c cs] Hl Hlen; simplify_eq /=; [done|].
  inversion Hl; subst. simpl. rewrite list_lookup_middle by done.
  specialize (IH (pre ++ [c]) cs). rewrite <-app_assoc, length_app in IH.
  simpl in IH. rewrite Nat.add_1_r in IH. by rewrite IH.
Qed.

Lemma all_true_rank l : forall v,
  Forall (fun b => b = true) l -> (v <= length l)%nat -> rank l v = v.
Proof.
  induction l as [|b l IH]; intros [|v] Hl Hv; simpl in *; try done; [lia|].
  inversion Hl; subst. rewrite rank_cons, IH by (done || lia). done.
Qed.

(** The loop of a prune pass leaves the model as it is when the dictionary
    maps the label of every sample to itself. *)
Lemma prune_samples_fixed lm (X : list sample) : forall i (st : state),
  (forall k, (k < length X)%nat ->
     exists v : nat, labels_ st !! (i + k)%nat = Some (Z.of_nat v)
                     /\ lm !! Z.of_nat v = Some v) ->
  prune_samples lm i X st = (Ok tt, st).
Proof.
  induction X as [|x X IH]; intros i st Hl; [done|]. simpl.
  destruct (Hl 0%nat) as (v & Hv & Hlm); [simpl; lia|].
  rewrite Nat.add_0_r in Hv.
  assert (prune_sample lm i x st = (Ok tt, st)) as E.
  { unfold prune_sample, mbind, get, lift, modify, item, store.
    rewrite Hv. simpl. rewrite Hlm.
    rewrite list_insert_id by done. by destruct st. }
  unfold mbind. rewrite E. apply IH. intros k Hk.
  replace (S i + k)%nat with (i + S k)%nat by lia. apply Hl. simpl. lia.
Qed.

(** X14.  [prune], lines 145-164: a model whose categories are all
    permanent is a fixed point of pruning.  With one flag and one counter
    for each weight, all flags set, and labels that name weights, a pass
    keeps the weights, the counters, the mask and every label: it returns
    and leaves the model as it was. *)
Theorem prune_of_permanent_model_changes_nothing (X : list sample)
    (st : state) l cs :
  _permanent_mask st = Vec1 l -> Forall (fun b => b = true) l ->
  _counter st = Vec1 cs ->
  length l = length (W st) -> length cs = length (W st) ->
  (forall i, (i < length X)%nat ->
     exists v : nat, labels_ st !! i = Some (Z.of_nat v)
                     /\ (v < length (W st))%nat) ->
  prune X st = (Ok tt, log st (EvPrune X)).
Proof.
  intros Hm Hl Hc Hlen Hlenc Hlab.
  assert (np_iadd (Vec1 l)
            (np_ge (Vec1 cs) (BaseART.phi (params st))) = Ok (Vec1 l)) as Hi.
  { simpl.
    set (k := (fun a => bool_decide (BaseART.phi (params st) <= a)) <$> cs).
    assert (length k = length l) as Hk.
    { subst k. rewrite length_fmap. lia. }
    clearbody k. destruct k as [|b [|b' k']].
    - rewrite decide_True by done. by destruct l.
    - by rewrite all_true_fmap_orb.
    - rewrite decide_True by done. by rewrite all_true_zip_orb. }
  rewrite (prune_run X st (Vec1 l) (where_from 0 l) (W st) (Vec1 cs)).
  - replace (mkState (params st) (W st) (adjacency st) (Vec1 cs) (Vec1 l)
               (labels_ st) (trace st ++ [EvPrune X]))
      with (log st (EvPrune X)) by (unfold log; by rewrite Hm, Hc).
    apply prune_samples_fixed. intros k Hk. simpl.
    destruct (Hlab k Hk) as (v & Hv & Hlt). exists v. split; [done|].
    rewrite label_map_lookup by by eapply list_elem_of_lookup_2.
    assert (l !! v = Some true) as Hlv.
    { destruct (lookup_lt_is_Some_2 l v) as [b Hb]; [lia|].
      rewrite Forall_forall in Hl. rewrite (Hl b) in Hb; [done|].
      by eapply list_elem_of_lookup_2. }
    pose proof (position_where_from l 0 v Hlv) as Hpos.
    change (0 + v)%nat with v in Hpos.
    rewrite Hpos, all_true_rank; [done..|lia].
  - by rewrite Hm, Hc.
  - done.
  - simpl. by rewrite all_true_select.
  - rewrite Hc. simpl.
    pose proof (all_true_take_list l [] cs Hl) as Ht. simpl in Ht.
    rewrite Ht; [done|lia].
Qed.

(** *** The state [fit] leaves *)

(** The iterations of [fit] add no weight, whatever their outcome. *)
Lemma fit_epochs_keeps (X : list sample) mrf n : forall (st : state) r st',
  fit_epochs n X mrf st = (r, st') ->
  params st' = params st
  /\ (length (W st') <= length (W st))%nat
  /\ length (labels_ st') = length (labels_ st).
Proof.
  induction n as [|n IH]; intros st r st'; simpl.
  { by intros [= <- <-]. }
  unfold mbind at 1.
  destruct (fit_samples X mrf 0 X st) as [[[]|e] st1] eqn:E1.
  - apply fit_samples_keeps in E1 as (? & ? & ? & _).
    intros (? & ? & ?)%IH. split_and!; try congruence; lia.
  - intros [= <- <-]. by apply fit_samples_keeps in E1 as (? & ? & ? & _).
Qed.

(** X15.  [fit], lines 247-257: the state a call leaves, whether it
    returns or raises.  When one of the two checks fails, the call raises
    [AssertionError] and the wrapper is as it was.  When both pass, the
    wrapper is left without any weight, with its parameters, and with one
    label for every sample. *)
Theorem fit_leaves_no_weight (X : list sample) mrf n (st : state) r st' :
  fit X mrf n st = (r, st') ->
  (BaseART.validate_data X && check_dimensions X = false ->
   r = Raise AssertionError /\ st' = st)
  /\ (BaseART.validate_data X && check_dimensions X = true ->
      W st' = [] /\ params st' = params st
      /\ length (labels_ st') = length X).
Proof.
  unfold TopoART.fit, fit_begin, mbind at 1 2 3 4, modify, ret, raise.
  destruct (BaseART.validate_data X); simpl.
  2:{ intros [= <- <-]. by split. }
  destruct (check_dimensions X); simpl.
  2:{ intros [= <- <-]. by split. }
  intros (Hp & HW & Hl)%fit_epochs_keeps. simpl in *.
  split; [done|]. intros _. rewrite length_replicate in Hl.
  split_and!; try done. destruct (W st'); [done|simpl in HW; lia].
Qed.

(** X16.  [prune], lines 150-154: the dictionary [label_map] of a pass
    with the mask [m] holds exactly the labels in use whose category is
    flagged, each with the number of flagged categories before it. *)
Theorem label_map_holds_the_surviving_labels (m : list bool) labels l n :
  label_map (where_from 0 m) labels !! l = Some n
  <-> l ∈ labels
      /\ exists j, l = Z.of_nat j /\ m !! j = Some true /\ n = rank m j.
Proof.
  split.
  - intros H. pose proof H as H'.
    apply label_map_Some in H as [Hpos _].
    unfold label_map in H'. apply elem_of_list_to_map_2 in H'.
    apply omap_keys_elem in H' as [Hin _].
    unfold np_unique in Hin. rewrite merge_sort_Permutation in Hin.
    rewrite elem_of_remove_dups in Hin. split; [done|].
    pose proof Hpos as Hpos'.
    apply position_Some in Hpos' as (p & Hp & ->).
    apply list_elem_of_lookup_2, elem_of_where_from in Hp as (k & -> & Hk).
    exists k. split_and!; [done..|].
    pose proof (position_where_from m 0 k Hk) as E. congruence.
  - intros (Hin & j & -> & Hj & ->).
    rewrite label_map_lookup by done.
    apply (position_where_from m 0 j Hj).
Qed.

(** *** Shapes *)

(** X17.  [step_fit], lines 185-232: a call that returns keeps the shapes
    of the model.  If there was one counter, one flag and one row and
    column of the adjacency for each weight before, there is after. *)
Theorem step_fit_keeps_the_shapes (x : sample) mrf (st st' : state) label :
  consistent st ->
  step_fit x mrf st = (Ok label, st') ->
  consistent st'.
Proof.
  intros (Hsq & Hc & Hm) H.
  destruct (step_fit_frame _ _ _ _ _ _ H) as (_ & Hc' & Hm' & _ & Hlen).
  unfold consistent. rewrite Hc', Hm', Hlen. split_and!; [|done..].
  apply step_fit_Ok in H
    as (T1 & w1 & k1 & r & _ & _ & _ & _ & _ & _ & T2 & _ & H).
  destruct H as [(_ & _ & ->)|(w2 & k2 & a & _ & _ & _ & _ & _ & Ha & ->)];
    [done|].
  simpl in *. by eapply np_incr2_square.
Qed.

(** *** Where a category would have to be created *)

(** The loop rejects one category after the other when none passes the
    test, and leaves the model as it is. *)
Lemma resonance_search_no_match fuel (x : sample) mrf T_cache (st : state) :
  forall T,
  length T = length (W st) ->
  length T_cache = length (W st) ->
  (forall j w k, W st !! j = Some w -> T_cache !! j = Some k ->
                 passes x mrf (params st) j w k = false) ->
  (count_positive T < fuel)%nat ->
  resonance_search fuel x mrf T_cache T (-1) st = (Ok (Exhausted (-1)), st).
Proof.
  induction fuel as [|fuel IH]; intros T HT HC Hno Hfuel; simpl; [lia|].
  destruct (any_positive T) eqn:Hany; [|done].
  apply np_argmax_positive in Hany as (t & Ht & Hpos).
  pose proof (lookup_lt_Some _ _ _ Ht) as Hlt.
  destruct (lookup_lt_is_Some_2 (W st) (np_argmax T)) as [w Hw]; [lia|].
  destruct (lookup_lt_is_Some_2 T_cache (np_argmax T)) as [k Hk]; [lia|].
  unfold mbind at 1, get. unfold mbind at 1, lift, item. rewrite Hw.
  unfold mbind at 1. rewrite Hk.
  pose proof (Hno _ _ _ Hw Hk) as Hp. unfold passes in Hp. simpl in Hp.
  rewrite Hp. apply IH; try done.
  - by rewrite length_insert.
  - pose proof (count_positive_masked T _ t Ht Hpos). lia.
Qed.

(** X18.  [step_fit], lines 226-230, and [new_weight], line 141: a sample
    no category passes the test of line 206 for does not become a new
    category.  In a model with a 2-dimensional adjacency the call reaches
    [new_weight], whose recursion ends in a [RecursionError]; it leaves the
    weights as they were and an adjacency padded once for every level of
    the recursion. *)
Theorem step_fit_without_match_raises_RecursionError (x : sample) mrf
    (st : state) rows :
  adjacency st = Mat2 rows ->
  (forall j w k,
     W st !! j = Some w ->
     caches x (params st) (W st) !! j = Some k ->
     passes x mrf (params st) j w k = false) ->
  exists st' rows',
    step_fit x mrf st = (Raise RecursionError, st')
    /\ W st' = W st
    /\ adjacency st' = Mat2 rows'
    /\ length rows' = (length rows + recursion_limit)%nat.
Proof.
  intros Ha Hno.
  destruct (new_weight_rec_Mat2 recursion_limit x (params st) st rows Ha)
    as (st' & rows' & Hn & Ha' & Hlen' & _ & _ & _ & HW & _).
  exists st', rows'. split_and!; [|done..].
  unfold TopoART.step_fit, mbind at 1, get.
  case_bool_decide as Hlen.
  { unfold mbind at 1, TopoART.new_weight. by rewrite Hn. }
  unfold mbind at 1. destruct (choices x st) as [[Tc|] st1] eqn:Ec.
  2:{ revert Ec. unfold choices, mbind, get, raise, ret.
      destruct (W st); [done|]. by intros [=]. }
  apply choices_Ok in Ec as (-> & _ & ET & EC).
  unfold mbind at 1.
  rewrite (resonance_search_no_match _ x mrf Tc.2 st Tc.1).
  - rewrite bool_decide_true by lia.
    unfold mbind, get, TopoART.new_weight. by rewrite Hn.
  - by rewrite ET; unfold activations; rewrite length_fmap.
  - by rewrite EC; unfold caches; rewrite length_fmap.
  - by rewrite EC.
  - pose proof (count_positive_length Tc.1). lia.
Qed.

(** *** A wrapper that was never fitted *)

(** X19.  [__init__], lines 22-24, with [step_fit], [prune] and [fit]: a
    wrapper stays as the constructor made it.  With no weight and the
    0-dimensional counter and mask, [step_fit] raises on every sample and
    [prune] on every data set, and a [fit] that returns leaves the model
    with no weight and the same 0-dimensional arrays. *)
Theorem new_wrapper_stays_unfitted (st : state) a b :
  W st = [] -> _counter st = Vec0 a -> _permanent_mask st = Vec0 b ->
  (forall x mrf, is_raise (step_fit x mrf st).1)
  /\ (forall X, is_raise (prune X st).1)
  /\ (forall X mrf n st',
        fit X mrf n st = (Ok tt, st') ->
        W st' = [] /\ _counter st' = Vec0 a /\ _permanent_mask st' = Vec0 b).
Proof.
  intros HW Hc Hm. split_and!.
  - intros x mrf. apply step_fit_no_activation. by rewrite HW.
  - intros X. unfold prune, mbind, modify, get, lift. simpl.
    by rewrite Hm, Hc.
  - intros X mrf n st' H. by destruct (fit_Ok _ _ _ _ _ H) as (_ & _ & _ & ->).
Qed.

End methods.

(** ** Runs of the one-dimensional module *)

Section runs.

Import Interval Runs.

Abbreviation step_fit := (@TopoART.step_fit Q Q unit Q art recursion_limit).
Abbreviation fit_samples :=
  (@TopoART.fit_samples Q Q unit Q art recursion_limit).
Abbreviation fit := (@TopoART.fit Q Q unit Q art check_dimensions recursion_limit).
Abbreviation prune := (@TopoART.prune Q Q unit Q art).
Abbreviation update := (@TopoART.update Q Q unit Q art).
Abbreviation resonance_search := (@TopoART.resonance_search Q Q unit Q art).

(** The dictionary of the record [params] passes the check. *)
Lemma validate_params_accepts_witness :
  Construction.validate_params (Construction.of_record params) = Ok tt.
Proof.
  apply (proj1 (validate_params_accepts (Construction.of_record params))).
  exists 1%Q, (1 # 2)%Q, 2%Q, 2%Q. repeat split; discriminate.
Defined.

(** The base module's own [tau = 7] is overridden, its vigilance is kept. *)
Lemma merged_params_valid_witness :
  Construction.validate_params (Construction.merged base_dict (1 # 2) 2 2)
  = Ok tt
  /\ Construction.merged base_dict (1 # 2) 2 2 !! "rho" = base_dict !! "rho".
Proof.
  split.
  - apply (proj1 (merged_params_valid base_dict (1 # 2) 2 2)).
    exists 1%Q. repeat split; [discriminate|lia].
  - apply (proj2 (merged_params_valid base_dict (1 # 2) 2 2)); discriminate.
Defined.

(** A [fit] of no data on the model of an earlier fit returns. *)
Lemma fit_returns_iff_nothing_to_do_witness :
  exists st', fit [] None 1 fitted = (Ok tt, st').
Proof.
  apply (proj1 (@fit_returns_iff_nothing_to_do Q Q unit Q art check_dimensions
                  recursion_limit [] None 1%nat fitted)).
  split_and!; [reflexivity..|by left].
Defined.

(** The first [fit] of a new model. *)
Lemma fit_of_new_wrapper_raises_TypeError_witness :
  _counter new_model = Vec0 0
  /\ BaseART.validate_data [(1 # 2)%Q] = true
  /\ check_dimensions [(1 # 2)%Q] = true
  /\ fit [(1 # 2)%Q] None 1 new_model
     = (Raise TypeError, set_labels (set_W new_model []) [0]).
Proof.
  split_and!; [reflexivity..|].
  exact (proj2 (@fit_of_new_wrapper_raises_TypeError Q Q unit Q art
                  check_dimensions recursion_limit (1 # 2)%Q [] None 0%nat
                  new_model 0 eq_refl eq_refl eq_refl)).
Defined.

(** Two positive activations: four and ten runs of the loop are the
    same. *)
Lemma resonance_search_bound_is_immaterial_witness :
  resonance_search 4 (1 # 2)%Q None [tt; tt] [(3 # 4)%Q; (3 # 4)%Q] (-1)
    two_categories
  = resonance_search 10 (1 # 2)%Q None [tt; tt] [(3 # 4)%Q; (3 # 4)%Q] (-1)
      two_categories.
Proof.
  refine (proj1 (@resonance_search_bound_is_immaterial Q Q unit Q art
                   (1 # 2)%Q None [tt; tt] 4%nat 10%nat
                   [(3 # 4)%Q; (3 # 4)%Q] (-1) two_categories _ _));
    vm_compute; lia.
Defined.

(** The sample 1/2 on the model whose one category has the weight 1/2. *)
Lemma step_fit_returns_an_existing_category_witness :
  exists st',
    step_fit (1 # 2)%Q None one_category = (Ok 0, st')
    /\ exists c1 : nat,
         0 = Z.of_nat c1 /\ (c1 < length (W one_category))%nat
         /\ length (W st') = length (W one_category).
Proof.
  eexists. split; [vm_compute; reflexivity|].
  destruct (@step_fit_returns_an_existing_category Q Q unit Q art
              recursion_limit (1 # 2)%Q None one_category _ 0
              ltac:(vm_compute; reflexivity))
    as (c1 & c2 & H1 & H2 & _ & H4 & _).
  exists c1. split; [exact H1|]. split; [exact H2|exact H4].
Defined.

Lemma step_fit_returns_the_best_passing_category_witness :
  exists st',
    step_fit (1 # 2)%Q None one_category = (Ok 0, st')
    /\ exists (c1 : nat) t,
         0 = Z.of_nat c1
         /\ activations (1 # 2)%Q (TopoART.params one_category)
              (W one_category) !! c1 = Some t
         /\ (0 < t)%Q.
Proof.
  eexists. split; [vm_compute; reflexivity|].
  destruct (@step_fit_returns_the_best_passing_category Q Q unit Q art
              recursion_limit (1 # 2)%Q None one_category _ 0
              ltac:(vm_compute; reflexivity))
    as (c1 & t & H1 & H2 & H3 & _).
  exists c1, t. split; [exact H1|]. split; [exact H2|exact H3].
Defined.

(** A cache that records a resonant category but not the current one. *)
Lemma update_raises_only_on_the_adjacency_witness :
  update (1 # 2)%Q (1 # 2)%Q params (BaseART.mkCache tt (Some 0) None)
    one_category
  = (Raise KeyError, one_category).
Proof.
  apply (proj1 (@update_raises_only_on_the_adjacency Q Q unit Q art
                  (1 # 2)%Q (1 # 2)%Q params
                  (BaseART.mkCache tt (Some 0) None) one_category)).
  split; [reflexivity|]. split; [simpl; lia|reflexivity].
Defined.

(** The pass over the three categories drops the first one: the second
    sample goes from label 1 to label 0 and still names the weight 1/4. *)
Lemma prune_labels_follow_their_categories_witness :
  exists st',
    prune three_samples three_categories = (Ok tt, st')
    /\ permanent st' 1
    /\ exists j' : nat,
         labels_ st' !! 1%nat = Some (Z.of_nat j')
         /\ W st' !! j' = Some (1 # 4)%Q.
Proof.
  eexists. split; [vm_compute; reflexivity|].
  match goal with
  | |- permanent ?s 1 /\ _ =>
      assert (permanent s 1) as Hp
        by (exists [false; true; true]; split; reflexivity)
  end.
  split; [exact Hp|].
  destruct (@prune_labels_follow_their_categories Q Q unit Q art
              three_samples three_categories _ 1%nat (1 # 4)%Q 1%nat
              ltac:(vm_compute; reflexivity) eq_refl eq_refl Hp)
    as (j' & Hl & _ & _ & Hw).
  exists j'. split; [exact Hl|]. apply Hw. reflexivity.
Defined.

(** The second and the third sample stay apart. *)
Lemma prune_keeps_survivors_apart_witness :
  exists st',
    prune three_samples three_categories = (Ok tt, st')
    /\ permanent st' 1 /\ permanent st' 2
    /\ exists v1 v2,
         labels_ st' !! 1%nat = Some v1 /\ labels_ st' !! 2%nat = Some v2
         /\ 0 <= v1 < v2.
Proof.
  eexists. split; [vm_compute; reflexivity|].
  match goal with
  | |- permanent ?s 1 /\ _ =>
      assert (permanent s 1 /\ permanent s 2) as [Hp1 Hp2]
        by (split; exists [false; true; true]; split; reflexivity)
  end.
  split; [exact Hp1|]. split; [exact Hp2|].
  exact (@prune_keeps_survivors_apart Q Q unit Q art
           three_samples three_categories _ 1%nat (1 # 4)%Q 1%nat
           2%nat (3 # 4)%Q 2%nat
           ltac:(vm_compute; reflexivity) eq_refl eq_refl eq_refl eq_refl
           Hp1 Hp2 ltac:(lia)).
Defined.

(** The counter 2 of the second category is at index 0 afterwards, and
    has grown. *)
Lemma prune_counter_of_survivor_witness :
  exists st',
    prune three_samples three_categories = (Ok tt, st')
    /\ permanent st' 1
    /\ exists cs' (k : nat),
         _counter st' = Vec1 cs'
         /\ (k <= length three_samples)%nat
         /\ cs' !! new_index st' 1 = Some (incr64 k 2)
         /\ 2 <= incr64 k 2.
Proof.
  eexists. split; [vm_compute; reflexivity|].
  match goal with
  | |- permanent ?s 1 /\ _ =>
      assert (permanent s 1) as Hp
        by (exists [false; true; true]; split; reflexivity)
  end.
  split; [exact Hp|].
  destruct (@prune_counter_of_survivor Q Q unit Q art
              three_samples three_categories _ [1; 2; 3] 1%nat 2
              ltac:(vm_compute; reflexivity) eq_refl eq_refl Hp)
    as (perm & cs' & k & _ & H2 & _ & H4 & H5 & H6).
  exists cs', k. split; [exact H2|]. split; [exact H4|]. split; [exact H5|].
  apply H6; [unfold int64; lia|simpl in H4; lia].
Defined.

(** All three labels are indices of the two weights that are left. *)
Lemma prune_labels_are_categories_witness :
  exists st',
    vec_len (_counter three_categories) = Some (length (W three_categories))
    /\ prune three_samples three_categories = (Ok tt, st')
    /\ exists v : nat,
         labels_ st' !! 0%nat = Some (Z.of_nat v)
         /\ (v < length (W st'))%nat.
Proof.
  eexists. split; [reflexivity|]. split; [vm_compute; reflexivity|].
  exact (@prune_labels_are_categories Q Q unit Q art
           three_samples three_categories _ eq_refl
           ltac:(vm_compute; reflexivity) 0%nat (1 # 8)%Q eq_refl).
Defined.

(** Neither of the two categories has reached [phi = 3]. *)
Lemma prune_without_survivor_raises_witness :
  _permanent_mask no_survivor = Vec1 [false; false]
  /\ _counter no_survivor = Vec1 [1; 1]
  /\ exists st', prune two_samples no_survivor = (Raise ValueError, st')
                 /\ W st' = [] /\ _counter st' = Vec1 [].
Proof.
  split; [reflexivity|]. split; [reflexivity|].
  refine (proj2 (@prune_without_survivor_raises Q Q unit Q art
                   (1 # 4)%Q [(3 # 4)%Q] no_survivor [false; false] [1; 1]
                   eq_refl _ eq_refl _) eq_refl _).
  - repeat constructor.
  - repeat constructor; simpl; lia.
  - discriminate.
Defined.

Lemma prune_of_permanent_model_changes_nothing_witness :
  prune two_samples all_permanent
  = (Ok tt, log all_permanent (EvPrune two_samples)).
Proof.
  refine (@prune_of_permanent_model_changes_nothing Q Q unit Q art
            two_samples all_permanent [true; true] [3; 5]
            eq_refl _ eq_refl eq_refl eq_refl _).
  - repeat constructor.
  - intros [|[|i]] Hi.
    + exists 0%nat. split; [reflexivity|simpl; lia].
    + exists 1%nat. split; [reflexivity|simpl; lia].
    + simpl in Hi. lia.
Defined.

(** [fit] on a new wrapper, which raises at its first [step_prune]. *)
Lemma fit_leaves_no_weight_witness :
  exists st',
    fit two_samples None 1 new_model = (Raise TypeError, st')
    /\ W st' = []
    /\ TopoART.params st' = TopoART.params new_model
    /\ length (labels_ st') = length two_samples.
Proof.
  eexists. split; [vm_compute; reflexivity|].
  exact (proj2 (@fit_leaves_no_weight Q Q unit Q art check_dimensions
                  recursion_limit two_samples None 1%nat new_model _ _
                  ltac:(vm_compute; reflexivity))
           ltac:(reflexivity)).
Defined.

(** Label 2 is in use and its category is the second of the two flagged
    ones. *)
Lemma label_map_holds_the_surviving_labels_witness :
  label_map (where_from 0 [false; true; true]) [0; 1; 2] !! 2 = Some 1%nat.
Proof.
  apply (proj2 (label_map_holds_the_surviving_labels [false; true; true]
                  [0; 1; 2] 2 1%nat)).
  split.
  - apply list_elem_of_In. simpl. auto.
  - exists 2%nat. split_and!; reflexivity.
Defined.

Lemma step_fit_keeps_the_shapes_witness :
  exists st',
    consistent one_category
    /\ step_fit (1 # 2)%Q None one_category = (Ok 0, st')
    /\ consistent st'.
Proof.
  assert (consistent one_category) as Hc.
  { split_and!; [|reflexivity..]. split; [reflexivity|]. repeat constructor. }
  eexists. split; [exact Hc|]. split; [vm_compute; reflexivity|].
  exact (@step_fit_keeps_the_shapes Q Q unit Q art recursion_limit
           (1 # 2)%Q None one_category _ 0 Hc ltac:(vm_compute; reflexivity)).
Defined.

(** The sample 0 is too far from the weight 1/2. *)
Lemma step_fit_without_match_raises_RecursionError_witness :
  adjacency one_category = Mat2 [[0]]
  /\ exists st' rows',
       step_fit 0%Q None one_category = (Raise RecursionError, st')
       /\ W st' = W one_category
       /\ adjacency st' = Mat2 rows'
       /\ length rows' = (1 + recursion_limit)%nat.
Proof.
  split; [reflexivity|].
  refine (@step_fit_without_match_raises_RecursionError Q Q unit Q art
            recursion_limit 0%Q None one_category [[0]] eq_refl _).
  intros [|j] w k Hw Hk; [|discriminate Hw].
  injection Hw as <-. reflexivity.
Defined.

(** The model the constructor makes. *)
Lemma new_wrapper_stays_unfitted_witness :
  W new_model = [] /\ _counter new_model = Vec0 0
  /\ _permanent_mask new_model = Vec0 false
  /\ is_raise (prune two_samples new_model).1.
Proof.
  split_and!; [reflexivity..|].
  exact (proj1 (proj2 (@new_wrapper_stays_unfitted Q Q unit Q art
                         check_dimensions recursion_limit new_model 0 false
                         eq_refl eq_refl eq_refl)) two_samples).
Defined.

End runs.
End Behaviour.
